(** * Atlas backend: the room registry and the turn-based game state machine

    A shallow embedding of the Socket.IO handlers of [src/api/server.js]
    ([createRoom], [joinRoom], [startGame], [submitPlace], [disconnect]) and
    of the helpers [isValidPlace] and [createGameRoom], followed by the
    properties of the room life cycle that the specification states.

    Conventions of the embedding.
    - The process-wide object [gameRooms] is a finite map from room
      identifiers to rooms, its own properties.  Being a plain object it also
      answers, for the names in [objectPrototypeMembers], with the member it
      inherits from [Object.prototype]: [joinRoom], which reads the object
      under an identifier chosen by the client, is modelled with that case.
      The other handlers read it under the identifier stored on the socket;
      an inherited name gets there only through the [joinRoom] that throws,
      and the uncaught exception ends the process.
    - JavaScript objects are shared by reference: a handler fetches the room
      from the registry, mutates it and the registry sees the mutation.  Here
      the handler fetches the room, builds the mutated record and writes it
      back under the same key.
    - A handler runs to completion before the next event is handled, so a
      handler is a function from the server state to the state after it, the
      list of things it sent, and how it completed.
    - Numbers are integers ([Z]); [Date.now()] and [uuidv4()] are inputs of
      the event that needs them.
    - Payloads are well formed: user names, room identifiers and place names
      are strings and acknowledgement callbacks are functions. *)

From Stdlib Require Import ZArith Ascii String List Bool.
From stdpp Require Import gmap strings list fin_maps.

Local Open Scope Z_scope.

(** ** JavaScript strings *)

Module JsString.

(** [s.charAt(i)]: the one-character string at index [i], or the empty
    string when [i] is out of range (in particular for [i = -1]). *)
Definition charAt (s : string) (i : Z) : string :=
  if i <? 0 then EmptyString
  else match String.get (Z.to_nat i) s with
       | Some c => String c EmptyString
       | None => EmptyString
       end.

(** [s.length] (named [lengthOf]: [length] is the length of a list). *)
Definition lengthOf (s : string) : Z := Z.of_nat (String.length s).

(** [s.substring(0, n)]. *)
Definition substring0 (n : nat) (s : string) : string := String.substring 0 n s.

(** [!s] is false exactly for the non-empty strings. *)
Definition truthy (s : string) : bool :=
  match s with EmptyString => false | String _ _ => true end.

(** [s.split(sep)] for a one-character separator: never an empty list. *)
Fixpoint split (sep : ascii) (s : string) : list string :=
  match s with
  | EmptyString => [EmptyString]
  | String c rest =>
      if Ascii.eqb c sep then EmptyString :: split sep rest
      else match split sep rest with
           | w :: ws => String c w :: ws
           | [] => [String c EmptyString]
           end
  end.

(** [words.join(sep)]. *)
Fixpoint join (sep : string) (words : list string) : string :=
  match words with
  | [] => EmptyString
  | [w] => w
  | w :: ws => String.append w (String.append sep (join sep ws))
  end.

(** The methods of [String.prototype] whose result depends on the Unicode
    tables.  The handlers are written against this interface; every theorem
    on them holds for each implementation of it. *)
Class StringPrototype := {
  trim : string -> string;
  toLowerCase : string -> string;
  toUpperCase : string -> string
}.

(** The implementation on ASCII text, used to run the handlers. *)
Module Ascii7.

Definition isWhiteSpace (c : ascii) : bool :=
  let n := nat_of_ascii c in
  ((9 <=? n)%nat && (n <=? 13)%nat) || (n =? 32)%nat.

Fixpoint trimStart (s : string) : string :=
  match s with
  | EmptyString => EmptyString
  | String c rest => if isWhiteSpace c then trimStart rest else s
  end.

Fixpoint trimEnd (s : string) : string :=
  match s with
  | EmptyString => EmptyString
  | String c rest =>
      match trimEnd rest with
      | EmptyString => if isWhiteSpace c then EmptyString else String c EmptyString
      | t => String c t
      end
  end.

Definition lowerChar (c : ascii) : ascii :=
  let n := nat_of_ascii c in
  if (65 <=? n)%nat && (n <=? 90)%nat then ascii_of_nat (n + 32) else c.

Definition upperChar (c : ascii) : ascii :=
  let n := nat_of_ascii c in
  if (97 <=? n)%nat && (n <=? 122)%nat then ascii_of_nat (n - 32) else c.

Fixpoint mapChars (f : ascii -> ascii) (s : string) : string :=
  match s with
  | EmptyString => EmptyString
  | String c rest => String (f c) (mapChars f rest)
  end.

#[export] Instance ops : StringPrototype := {|
  trim := fun s => trimEnd (trimStart s);
  toLowerCase := mapChars lowerChar;
  toUpperCase := mapChars upperChar
|}.

End Ascii7.

End JsString.

Import JsString.

(** ** The place-name data of the [country-state-city] package *)

(** [Country.getAllCountries()], [State.getAllStates()] and
    [City.getAllCities()], each reduced to the [name] field that
    [isValidPlace] reads. *)
Class CountryStateCity := {
  getAllCountries : list string;
  getAllStates : list string;
  getAllCities : list string
}.

(** ** Data model *)

Record Player := mkPlayer {
  id : string;
  username : string;
  score : Z
}.

Record HistoryEntry := mkEntry {
  player : string;
  place : string;
  timestamp : Z
}.

Record Room := mkRoom {
  players : list Player;
  history : list HistoryEntry;
  currentPlayerIndex : Z;
  letterInPlay : string;
  started : bool
}.

(** The server: the registry [gameRooms] and, for each live socket that has
    one, the [roomId] property the handlers store on the socket object. *)
Record Server := mkServer {
  gameRooms : gmap string Room;
  socketRoomId : gmap string string
}.

#[export] Instance Player_eq_dec : EqDecision Player.
Proof. solve_decision. Defined.
#[export] Instance HistoryEntry_eq_dec : EqDecision HistoryEntry.
Proof. solve_decision. Defined.
#[export] Instance Room_eq_dec : EqDecision Room.
Proof. solve_decision. Defined.

(** ** What a handler sends *)

(** The reasons for which [submitPlace] refuses a submission. *)
Inductive TurnError :=
| NotYourTurn
| InvalidPlace
| WrongLetter (letter : string)
| AlreadyUsed.

(** The text carried by the ['error'] event. *)
Definition errorMessage (e : TurnError) : string :=
  match e with
  | NotYourTurn => "Not your turn"
  | InvalidPlace => "Invalid place name"
  | WrongLetter letter =>
      String.append "Place name must start with '" (String.append letter "'")
  | AlreadyUsed => "This place has already been used"
  end%string.

(** The argument passed to the acknowledgement callback. *)
Inductive Ack :=
| AckCreated (roomId : string)                (* { roomId, success: true } *)
| AckFailure (message : string)               (* { success: false, message } *)
| AckJoined (roomData : Room).                (* { success: true, roomData } *)

(** The events broadcast to a Socket.IO room, with the snapshot they carry. *)
Inductive Broadcast :=
| updateRoom (room : Room)
| gameStarted (room : Room)
| updateGame (room : Room)
| playerLeft (who : string) (room : Room).

Inductive Effect :=
| SocketJoin (socket roomId : string)         (* socket.join(roomId) *)
| Callback (socket : string) (ack : Ack)      (* callback(...) *)
| EmitError (socket : string) (e : TurnError) (* socket.emit('error', ...) *)
| EmitRoom (roomId : string) (b : Broadcast). (* io.to(roomId).emit(...) *)

(** How a handler ended: by returning, or by an uncaught [TypeError] raised
    when a property of [undefined] is read. *)
Inductive Completion := Returned | TypeError.

Record Run := mkRun {
  after : Server;
  sent : list Effect;
  completion : Completion
}.

Definition isBroadcast (e : Effect) : bool :=
  match e with EmitRoom _ _ => true | _ => false end.

(** ** Helpers on arrays *)

(** [a[i]] for a number [i]: [None] stands for [undefined]. *)
Definition at_index {A : Type} (a : list A) (i : Z) : option A :=
  if i <? 0 then None else a !! Z.to_nat i.

(** [a.findIndex(p)]: [None] stands for [-1]. *)
Fixpoint findIndex {A : Type} (p : A -> bool) (a : list A) : option nat :=
  match a with
  | [] => None
  | x :: rest => if p x then Some 0%nat else S <$> findIndex p rest
  end.

(** [a.some(p)]. *)
Definition some {A : Type} (p : A -> bool) (a : list A) : bool := existsb p a.

(** The names of the members that every plain object inherits from
    [Object.prototype]: for these, [gameRooms[name]] is a function (or, for
    [__proto__], the prototype object) even when no room is registered under
    the name. *)
Definition objectPrototypeMembers : list string :=
  ["constructor"; "__defineGetter__"; "__defineSetter__"; "hasOwnProperty";
   "__lookupGetter__"; "__lookupSetter__"; "isPrototypeOf";
   "propertyIsEnumerable"; "toString"; "valueOf"; "__proto__";
   "toLocaleString"]%string.

Definition inheritedMember (key : string) : bool :=
  some (fun member => bool_decide (member = key)) objectPrototypeMembers.

(** ** The handlers *)

Section Handlers.

Context {js : StringPrototype} {geo : CountryStateCity}.

Definition getFirstWords (str : string) : string :=
  let words := split " "%char str in
  toLowerCase (join " " (take 2 words)).

Definition isValidPlace (placeName : string) : bool :=
  let normalizedName := toLowerCase (trim placeName) in
  let sameFirstWords (name : string) : bool :=
    bool_decide (getFirstWords name = getFirstWords normalizedName) in
  if some sameFirstWords getAllCountries then true
  else if some sameFirstWords getAllStates then true
  else if some sameFirstWords getAllCities then true
  else false.

(** The room literal of [createGameRoom]. *)
Definition emptyRoom : Room :=
  {| players := []; history := []; currentPlayerIndex := 0;
     letterInPlay := ""; started := false |}.

(** [createGameRoom()], with the value of [uuidv4()] as argument: the new
    identifier and the registry after the assignment (an existing room under
    the same identifier is replaced). *)
Definition createGameRoom (uuid : string) (rooms : gmap string Room)
  : string * gmap string Room :=
  let roomId := substring0 6 uuid in
  (roomId, <[roomId := emptyRoom]> rooms).

(** [room.players.push({ id, username, score: 0 })]. *)
Definition pushPlayer (socket name : string) (room : Room) : Room :=
  {| players := players room ++ [mkPlayer socket name 0];
     history := history room;
     currentPlayerIndex := currentPlayerIndex room;
     letterInPlay := letterInPlay room;
     started := started room |}.

Definition setRooms (rooms : gmap string Room) (s : Server) : Server :=
  {| gameRooms := rooms; socketRoomId := socketRoomId s |}.

(** [socket.roomId = roomId]. *)
Definition bindSocket (socket roomId : string) (s : Server) : Server :=
  {| gameRooms := gameRooms s; socketRoomId := <[socket := roomId]> (socketRoomId s) |}.

(** A handler that returns without doing anything. *)
Definition silent (s : Server) : Run := mkRun s [] Returned.

(** The guard [if (!roomId || !gameRooms[roomId]) return;] shared by
    [startGame], [submitPlace] and [disconnect]: the room the socket is bound
    to, when the socket has a non-empty [roomId] that is still registered. *)
Definition boundRoom (socket : string) (s : Server) : option (string * Room) :=
  match socketRoomId s !! socket with
  | None => None
  | Some roomId =>
      if negb (truthy roomId) then None
      else match gameRooms s !! roomId with
           | None => None
           | Some room => Some (roomId, room)
           end
  end.

Definition createRoom (socket name uuid : string) (s : Server) : Run :=
  let '(roomId, rooms) := createGameRoom uuid (gameRooms s) in
  match rooms !! roomId with
  | None => mkRun (setRooms rooms s) [SocketJoin socket roomId] TypeError
  | Some room =>
      let room := pushPlayer socket name room in
      let s := bindSocket socket roomId (setRooms (<[roomId := room]> rooms) s) in
      mkRun s [SocketJoin socket roomId;
               Callback socket (AckCreated roomId);
               EmitRoom roomId (updateRoom room)] Returned
  end.

Definition joinRoom (socket roomId name : string) (s : Server) : Run :=
  match gameRooms s !! roomId with
  | None =>
      if inheritedMember roomId then
        (* [gameRooms[roomId]] is the inherited member: it is truthy, its
           [started] is undefined, and reading [push] of its undefined
           [players] throws, after [socket.join] and [socket.roomId = roomId] *)
        mkRun (bindSocket socket roomId s) [SocketJoin socket roomId] TypeError
      else
        mkRun s [Callback socket (AckFailure "Room not found")] Returned
  | Some room =>
      if started room then
        mkRun s [Callback socket (AckFailure "Game already started")] Returned
      else
        let room := pushPlayer socket name room in
        let s := setRooms (<[roomId := room]> (gameRooms s)) (bindSocket socket roomId s) in
        mkRun s [SocketJoin socket roomId;
                 Callback socket (AckJoined room);
                 EmitRoom roomId (updateRoom room)] Returned
  end.

(** [room.started = true; room.letterInPlay = '';] *)
Definition startRoom (room : Room) : Room :=
  {| players := players room;
     history := history room;
     currentPlayerIndex := currentPlayerIndex room;
     letterInPlay := "";
     started := true |}.

Definition startGame (socket : string) (s : Server) : Run :=
  match boundRoom socket s with
  | None => silent s
  | Some (roomId, room) =>
      let room := startRoom room in
      mkRun (setRooms (<[roomId := room]> (gameRooms s)) s)
            [EmitRoom roomId (gameStarted room)] Returned
  end.

(** [currentPlayer.score += 1], on the element of [players] that
    [currentPlayer] refers to. *)
Definition addPoint (p : Player) : Player :=
  {| id := id p; username := username p; score := score p + 1 |}.

(** The success branch of [submitPlace] (lines 201 to 211): the room after
    the four assignments. *)
Definition acceptPlace (currentPlayer : Player) (placeName : string) (now : Z)
    (room : Room) : Room :=
  let lastLetter := toUpperCase (charAt placeName (lengthOf placeName - 1)) in
  {| players := alter addPoint (Z.to_nat (currentPlayerIndex room)) (players room);
     history := history room ++ [mkEntry (username currentPlayer) placeName now];
     currentPlayerIndex :=
       Z.rem (currentPlayerIndex room + 1) (Z.of_nat (length (players room)));
     letterInPlay := lastLetter;
     started := started room |}.

Definition submitPlace (socket placeName : string) (now : Z) (s : Server) : Run :=
  match boundRoom socket s with
  | None => silent s
  | Some (roomId, room) =>
      match at_index (players room) (currentPlayerIndex room) with
      | None => mkRun s [] TypeError
      | Some currentPlayer =>
          if negb (bool_decide (id currentPlayer = socket)) then
            mkRun s [EmitError socket NotYourTurn] Returned
          else
            let placeName := trim placeName in
            if negb (isValidPlace placeName) then
              mkRun s [EmitError socket InvalidPlace] Returned
            else if truthy (letterInPlay room)
                    && negb (bool_decide (toLowerCase (charAt placeName 0)
                                          = toLowerCase (letterInPlay room))) then
              mkRun s [EmitError socket (WrongLetter (letterInPlay room))] Returned
            else if some (fun entry =>
                            bool_decide (toLowerCase (place entry)
                                         = toLowerCase placeName))
                         (history room) then
              mkRun s [EmitError socket AlreadyUsed] Returned
            else
              let room := acceptPlace currentPlayer placeName now room in
              mkRun (setRooms (<[roomId := room]> (gameRooms s)) s)
                    [EmitRoom roomId (updateGame room)] Returned
      end
  end.

(** [room.players.splice(playerIndex, 1)] followed by the repair of the turn
    pointer (lines 223 to 227). *)
Definition removeAt (playerIndex : nat) (room : Room) : Room :=
  {| players := delete playerIndex (players room);
     history := history room;
     currentPlayerIndex :=
       if (Z.of_nat playerIndex <=? currentPlayerIndex room)
          && (currentPlayerIndex room >? 0)
       then currentPlayerIndex room - 1
       else currentPlayerIndex room;
     letterInPlay := letterInPlay room;
     started := started room |}.

Definition disconnect (socket : string) (s : Server) : Run :=
  match boundRoom socket s with
  | None => silent s
  | Some (roomId, room) =>
      match findIndex (fun p => bool_decide (id p = socket)) (players room) with
      | None => silent s
      | Some playerIndex =>
          let room := removeAt playerIndex room in
          if bool_decide (length (players room) = 0%nat) then
            mkRun (setRooms (delete roomId (gameRooms s)) s) [] Returned
          else
            mkRun (setRooms (<[roomId := room]> (gameRooms s)) s)
                  [EmitRoom roomId (playerLeft socket room)] Returned
      end
  end.

(** ** The server as a transition system *)

(** What a client can make the server handle. *)
Inductive Request :=
| CreateRoom (socket name uuid : string)
| JoinRoom (socket roomId name : string)
| StartGame (socket : string)
| SubmitPlace (socket placeName : string) (now : Z)
| Disconnect (socket : string).

(** After its [disconnect] handler has run a socket object is gone, and with
    it the [roomId] stored on it. *)
Definition dropSocket (socket : string) (r : Run) : Run :=
  mkRun {| gameRooms := gameRooms (after r);
           socketRoomId := delete socket (socketRoomId (after r)) |}
        (sent r) (completion r).

Definition handle (q : Request) (s : Server) : Run :=
  match q with
  | CreateRoom socket name uuid => createRoom socket name uuid s
  | JoinRoom socket roomId name => joinRoom socket roomId name s
  | StartGame socket => startGame socket s
  | SubmitPlace socket placeName now => submitPlace socket placeName now s
  | Disconnect socket => dropSocket socket (disconnect socket s)
  end.

(** [const gameRooms = {}] and no socket. *)
Definition initial : Server := {| gameRooms := ∅; socketRoomId := ∅ |}.

(** The state after a sequence of requests, oldest first. *)
Definition runAll (qs : list Request) (s : Server) : Server :=
  fold_left (fun s q => after (handle q s)) qs s.

Inductive reachable : Server -> Prop :=
| reachable_initial : reachable initial
| reachable_step s q : reachable s -> reachable (after (handle q s)).

End Handlers.

(** ** The vocabulary of the specification *)

Section Vocabulary.

Context {js : StringPrototype} {geo : CountryStateCity}.

(** The last character of a string, as a string; empty for the empty string. *)
Fixpoint lastCharacter (s : string) : string :=
  match s with
  | EmptyString => EmptyString
  | String c EmptyString => String c EmptyString
  | String _ rest => lastCharacter rest
  end.

(** The first character of a string, as a string; empty for the empty string. *)
Definition firstCharacter (s : string) : string :=
  match s with
  | EmptyString => EmptyString
  | String c _ => String c EmptyString
  end.

(** Two strings are equal case-insensitively. *)
Definition sameIgnoringCase (a b : string) : Prop := toLowerCase a = toLowerCase b.

(** The four checks of [submit], each stated as the condition under which the
    submission [placeName] (already trimmed) fails it. *)
Definition failsTurn (socket : string) (currentPlayer : Player) : Prop :=
  id currentPlayer ≠ socket.

Definition failsValidity (placeName : string) : Prop :=
  isValidPlace placeName = false.

Definition failsLetter (room : Room) (placeName : string) : Prop :=
  letterInPlay room ≠ EmptyString
  ∧ ¬ sameIgnoringCase (firstCharacter placeName) (letterInPlay room).

Definition failsUnused (room : Room) (placeName : string) : Prop :=
  ∃ entry, entry ∈ history room ∧ sameIgnoringCase (place entry) placeName.

(** The run of a submission refused for the reason [e], and the run of an
    accepted submission that leaves [room] under [roomId]. *)
Definition refusal (socket : string) (e : TurnError) (s : Server) : Run :=
  mkRun s [EmitError socket e] Returned.

Definition acceptance (roomId : string) (room : Room) (s : Server) : Run :=
  mkRun (setRooms (<[roomId := room]> (gameRooms s)) s)
        [EmitRoom roomId (updateGame room)] Returned.

(** The turn pointer designates a player, or there is no player. *)
Definition turnPointerValid (room : Room) : Prop :=
  players room = [] ∨ 0 <= currentPlayerIndex room < Z.of_nat (length (players room)).

(** The turn pointer designates a player. *)
Definition turnPointerInRange (room : Room) : Prop :=
  0 <= currentPlayerIndex room < Z.of_nat (length (players room)).

(** No two history entries name the same place up to case. *)
Definition distinctPlaces (room : Room) : Prop :=
  ∀ i j e1 e2,
    history room !! i = Some e1 → history room !! j = Some e2 →
    sameIgnoringCase (place e1) (place e2) → i = j.

(** The ways in which a handler changes a room that stays registered: a
    player joins, the game is started, a submission is accepted, a player
    leaves and is not the last one. *)
Inductive roomChange : Room → Room → Prop :=
| change_join socket name room :
    roomChange room (pushPlayer socket name room)
| change_start room :
    roomChange room (startRoom room)
| change_accept currentPlayer placeName now room :
    at_index (players room) (currentPlayerIndex room) = Some currentPlayer →
    ¬ failsUnused room placeName →
    roomChange room (acceptPlace currentPlayer placeName now room)
| change_leave playerIndex room :
    (playerIndex < length (players room))%nat →
    delete playerIndex (players room) ≠ [] →
    roomChange room (removeAt playerIndex room).

(** The turn pointer after the player at index [i] has left, as the repair
    rule states it. *)
Definition repairedIndex (i : nat) (current : Z) : Z :=
  if decide (Z.of_nat i <= current ∧ current > 0) then current - 1 else current.

(** A property holds of every registered room. *)
Definition everyRoom (P : Room → Prop) (s : Server) : Prop :=
  ∀ roomId room, gameRooms s !! roomId = Some room → P room.

End Vocabulary.

(** ** A concrete server, to run the handlers *)

Module Demo.

Import JsString.Ascii7.

#[export] Instance places : CountryStateCity := {|
  getAllCountries := ["Argentina"; "Brazil"; "Albania"; "India"]%string;
  getAllStates := ["New York"; "Goa"]%string;
  getAllCities := ["Paris"; "Ankara"]%string
|}.

Definition uuid : string := "3f2a9c1e-7b4d-4e8a-9c3b-1a2b3c4d5e6f".

(** Two players in the lobby of room ["3f2a9c"]. *)
Definition lobby : Server :=
  runAll [CreateRoom "s1" "Ana" uuid; JoinRoom "s2" "3f2a9c" "Bo"] initial.

(** The same room once started. *)
Definition game : Server := runAll [StartGame "s1"] lobby.

(** The game after the first player has played. *)
Definition played : Server := runAll [SubmitPlace "s1" " Argentina " 1000] game.

(** A room with one player. *)
Definition solo : Server := runAll [CreateRoom "s1" "Ana" uuid] initial.

(** Three players, two accepted submissions: it is the third player's turn. *)
Definition trio : Server :=
  runAll [CreateRoom "s1" "Ana" uuid; JoinRoom "s2" "3f2a9c" "Bo";
          JoinRoom "s3" "3f2a9c" "Cy"; StartGame "s1";
          SubmitPlace "s1" "Argentina" 1000; SubmitPlace "s2" "Albania" 2000]
         initial.

(** A socket whose room is gone: the identifier of the room of [s1] was
    reused by a later [createRoom], and the player of that room then left. *)
Definition stale : Server :=
  runAll [CreateRoom "s1" "Ana" uuid; CreateRoom "s2" "Bo" uuid; Disconnect "s2"]
         initial.

(** The rooms of these states. *)
Definition lobbyRoom : Room :=
  {| players := [mkPlayer "s1" "Ana" 0; mkPlayer "s2" "Bo" 0];
     history := [];
     currentPlayerIndex := 0;
     letterInPlay := "";
     started := false |}.

Definition gameRoom : Room :=
  {| players := [mkPlayer "s1" "Ana" 0; mkPlayer "s2" "Bo" 0];
     history := [];
     currentPlayerIndex := 0;
     letterInPlay := "";
     started := true |}.

Definition playedRoom : Room :=
  {| players := [mkPlayer "s1" "Ana" 1; mkPlayer "s2" "Bo" 0];
     history := [mkEntry "Ana" "Argentina" 1000];
     currentPlayerIndex := 1;
     letterInPlay := "A";
     started := true |}.

Definition soloRoom : Room :=
  {| players := [mkPlayer "s1" "Ana" 0];
     history := [];
     currentPlayerIndex := 0;
     letterInPlay := "";
     started := false |}.

Definition trioRoom : Room :=
  {| players := [mkPlayer "s1" "Ana" 1; mkPlayer "s2" "Bo" 1; mkPlayer "s3" "Cy" 0];
     history := [mkEntry "Ana" "Argentina" 1000; mkEntry "Bo" "Albania" 2000];
     currentPlayerIndex := 2;
     letterInPlay := "A";
     started := true |}.

End Demo.

(** ** Further vocabulary: accounts, steps, laws of the string methods *)

Section Accounts.

Context {js : StringPrototype} {geo : CountryStateCity}.

(** The names that [isValidPlace] goes through, in the order of its three
    searches. *)
Definition knownNames : list string :=
  getAllCountries ++ getAllStates ++ getAllCities.

(** The sum of the scores of the players of a room. *)
Definition totalScore (room : Room) : Z :=
  foldr (fun p acc => score p + acc) 0 (players room).

(** No score is negative, and the players of the room hold together at most
    one point per history entry. *)
Definition scoresSound (room : Room) : Prop :=
  (∀ p, p ∈ players room → 0 <= score p)
  ∧ totalScore room <= Z.of_nat (length (history room)).

(** The letter in play is the empty string or comes from the last entry of
    the history. *)
Definition letterFollowsHistory (room : Room) : Prop :=
  letterInPlay room = EmptyString
  ∨ ∃ entry, last (history room) = Some entry
             ∧ letterInPlay room = toUpperCase (lastCharacter (place entry)).

(** Every place of the history is a trimmed string that [isValidPlace]
    accepted. *)
Definition placesValidated (room : Room) : Prop :=
  ∀ entry, entry ∈ history room →
    isValidPlace (place entry) = true ∧ ∃ raw, place entry = trim raw.

(** The identifier of the only room a request can touch: the one it names,
    or the one stored on its socket. *)
Definition target (q : Request) (s : Server) : option string :=
  match q with
  | CreateRoom _ _ uuid => Some (substring0 6 uuid)
  | JoinRoom _ roomId _ => Some roomId
  | StartGame socket | SubmitPlace socket _ _ | Disconnect socket =>
      socketRoomId s !! socket
  end.

(** The socket a request comes from. *)
Definition sender (q : Request) : string :=
  match q with
  | CreateRoom socket _ _ | JoinRoom socket _ _ | StartGame socket
  | SubmitPlace socket _ _ | Disconnect socket => socket
  end.

(** How the request [q] changes the room registered under [roomId], when the
    room stays registered and is not replaced by a new one. *)
Inductive roomStep (roomId : string) : Request → Room → Room → Prop :=
| step_join socket name room :
    started room = false →
    roomStep roomId (JoinRoom socket roomId name) room (pushPlayer socket name room)
| step_start socket room :
    roomStep roomId (StartGame socket) room (startRoom room)
| step_accept socket raw now currentPlayer room :
    at_index (players room) (currentPlayerIndex room) = Some currentPlayer →
    id currentPlayer = socket →
    isValidPlace (trim raw) = true →
    ¬ failsLetter room (trim raw) →
    ¬ failsUnused room (trim raw) →
    roomStep roomId (SubmitPlace socket raw now) room
             (acceptPlace currentPlayer (trim raw) now room)
| step_leave socket playerIndex room :
    findIndex (fun p => bool_decide (id p = socket)) (players room) = Some playerIndex →
    delete playerIndex (players room) ≠ [] →
    roomStep roomId (Disconnect socket) room (removeAt playerIndex room).

(** Each request of the list, handled in turn, is a submission accepted in
    the room [roomId]: it is answered by the broadcast of [updateGame] to that
    room. *)
Fixpoint allAccepted (roomId : string) (qs : list Request) (s : Server) : Prop :=
  match qs with
  | [] => True
  | q :: rest =>
      (∃ room, sent (handle q s) = [EmitRoom roomId (updateGame room)])
      ∧ allAccepted roomId rest (after (handle q s))
  end.

End Accounts.

(** What the properties of [isValidPlace] need of the string methods: [trim]
    is idempotent, [toLowerCase] is idempotent, commutes with [trim], and
    works word by word; only the empty string has an empty lower or upper
    case form. *)
Class LawfulStrings {js : StringPrototype} : Prop := {
  trim_trim : ∀ s, trim (trim s) = trim s;
  lower_lower : ∀ s, toLowerCase (toLowerCase s) = toLowerCase s;
  lower_trim : ∀ s, toLowerCase (trim s) = trim (toLowerCase s);
  lower_split : ∀ s, split " " (toLowerCase s) = toLowerCase <$> split " " s;
  lower_join : ∀ ws, toLowerCase (join " " ws) = join " " (toLowerCase <$> ws);
  lower_empty : ∀ s, toLowerCase s = EmptyString ↔ s = EmptyString;
  upper_empty : ∀ s, toUpperCase s = EmptyString ↔ s = EmptyString
}.

(** More concrete states. *)
Module Scenes.

Import JsString.Ascii7 Demo.

(** The second player of [lobby] has created a room of their own; their
    entry in the first room stays. *)
Definition uuid2 : string := "b7e41d02-1111-4222-8333-444455556666".

Definition moved : Server := runAll [CreateRoom "s2" "Bo" uuid2] lobby.

(** Three players and no submission yet. *)
Definition trioStart : Server :=
  runAll [CreateRoom "s1" "Ana" uuid; JoinRoom "s2" "3f2a9c" "Bo";
          JoinRoom "s3" "3f2a9c" "Cy"; StartGame "s1"]
         initial.

Definition trioStartRoom : Room :=
  {| players := [mkPlayer "s1" "Ana" 0; mkPlayer "s2" "Bo" 0; mkPlayer "s3" "Cy" 0];
     history := [];
     currentPlayerIndex := 0;
     letterInPlay := "";
     started := true |}.

(** Four accepted submissions, one per turn. *)
Definition fourMoves : list Request :=
  [SubmitPlace "s1" "India" 1000; SubmitPlace "s2" "Argentina" 2000;
   SubmitPlace "s3" "albania" 3000; SubmitPlace "s1" " Ankara " 4000].

(** The identifier of the room of [s1] has been drawn again by the
    [createRoom] of [s2]: the socket [s1] still stores the identifier, the
    room lists [s2] only. *)
Definition replaced : Server :=
  runAll [CreateRoom "s1" "Ana" uuid; CreateRoom "s2" "Bo" uuid] initial.

Definition replacedRoom : Room :=
  {| players := [mkPlayer "s2" "Bo" 0];
     history := [];
     currentPlayerIndex := 0;
     letterInPlay := "";
     started := false |}.

End Scenes.

(** * Properties *)

(** ** Strings and arrays *)

Lemma charAt_first (s : string) : charAt s 0 = firstCharacter s.
Proof. by destruct s. Qed.

Lemma get_last (rest : string) (c : ascii) :
  ∃ d, String.get (String.length rest) (String c rest) = Some d
       ∧ lastCharacter (String c rest) = String d EmptyString.
Proof.
  revert c. induction rest as [|d rest IH]; intros c.
  - by exists c.
  - destruct (IH d) as (e & Hget & Hlast). exists e. split; [exact Hget|exact Hlast].
Qed.

Lemma charAt_last (s : string) : charAt s (lengthOf s - 1) = lastCharacter s.
Proof.
  destruct s as [|c rest]; [done|].
  unfold charAt, lengthOf.
  replace (Z.of_nat (String.length (String c rest)) - 1) with (Z.of_nat (String.length rest))
    by (simpl String.length; lia).
  destruct (Z.ltb_spec (Z.of_nat (String.length rest)) 0) as [?|_]; [lia|].
  rewrite Nat2Z.id.
  destruct (get_last rest c) as (d & -> & ->). done.
Qed.

Lemma truthy_true (s : string) : truthy s = true ↔ s ≠ EmptyString.
Proof. destruct s; simpl; split; congruence. Qed.

Lemma some_true {A : Type} (p : A → bool) (a : list A) :
  some p a = true ↔ ∃ x, x ∈ a ∧ p x = true.
Proof.
  unfold some. rewrite existsb_exists.
  split; intros (x & Hx & Hp); exists x; split; try done; by apply list_elem_of_In.
Qed.

Lemma at_index_Some {A : Type} (a : list A) (i : Z) (x : A) :
  at_index a i = Some x ↔ 0 <= i < Z.of_nat (length a) ∧ a !! Z.to_nat i = Some x.
Proof.
  unfold at_index. destruct (Z.ltb_spec i 0) as [Hneg|Hpos].
  - split; [done|]. intros [[? _] _]. lia.
  - split.
    + intros Hx. split; [|done]. apply lookup_lt_Some in Hx. lia.
    + by intros [_ Hx].
Qed.

Lemma findIndex_Some {A : Type} (p : A → bool) (a : list A) (i : nat) :
  findIndex p a = Some i →
  ∃ x, a !! i = Some x ∧ p x = true ∧ ∀ j y, (j < i)%nat → a !! j = Some y → p y = false.
Proof.
  revert i. induction a as [|x a IH]; intros i; simpl; [done|].
  destruct (p x) eqn:Hp.
  - intros [= <-]. exists x. split_and!; [done|done|]. intros; lia.
  - destruct (findIndex p a) as [k|] eqn:Hk; simpl; [|done].
    intros [= <-]. destruct (IH k eq_refl) as (y & Hy & Hpy & Hbefore).
    exists y. split_and!; [done|done|].
    intros [|j] z Hj; simpl.
    + by intros [= <-].
    + apply Hbefore. lia.
Qed.

Lemma substring0_length (n : nat) (s : string) :
  (String.length (substring0 n s) <= n)%nat.
Proof.
  unfold substring0. revert s. induction n as [|n IH]; intros [|c s]; simpl; try lia.
  specialize (IH s). lia.
Qed.

(** A string of at most six characters is not the name of a member
    inherited from [Object.prototype]. *)
Lemma short_not_inherited (key : string) :
  (String.length key <= 6)%nat → inheritedMember key = false.
Proof.
  intros Hshort. apply not_true_is_false. unfold inheritedMember.
  intros (member & Hin & Heq)%some_true. apply bool_decide_eq_true in Heq. subst key.
  unfold objectPrototypeMembers in Hin.
  repeat (apply elem_of_cons in Hin as [->|Hin]; [simpl in Hshort; lia|]).
  by apply elem_of_nil in Hin.
Qed.

(** ** The submission handler *)

Section Submit.

Context {js : StringPrototype} {geo : CountryStateCity}.

Lemma boundRoom_Some (socket : string) (s : Server) (roomId : string) (room : Room) :
  boundRoom socket s = Some (roomId, room) ↔
  socketRoomId s !! socket = Some roomId ∧ roomId ≠ EmptyString
  ∧ gameRooms s !! roomId = Some room.
Proof.
  unfold boundRoom. destruct (socketRoomId s !! socket) as [r|]; cycle 1.
  { split; [done|]. by intros [? _]. }
  destruct (truthy r) eqn:Ht; simpl.
  - apply truthy_true in Ht.
    destruct (gameRooms s !! r) as [room0|] eqn:Hr.
    + split; [by intros [= <- <-]|]. intros ([= ->] & _ & Hroom). congruence.
    + split; [done|]. intros ([= ->] & _ & Hroom). congruence.
  - split; [done|]. intros ([= ->] & Hne & _).
    apply truthy_true in Hne. congruence.
Qed.

Lemma boundRoom_None (socket : string) (s : Server) :
  socketRoomId s !! socket = None
  ∨ (∃ roomId, socketRoomId s !! socket = Some roomId ∧ gameRooms s !! roomId = None) →
  boundRoom socket s = None.
Proof.
  unfold boundRoom. intros [->|(roomId & -> & Hr)]; [done|].
  destruct (truthy roomId); simpl; [|done]. by rewrite Hr.
Qed.

(** The two boolean tests of the handler decide the corresponding checks. *)
Lemma letter_test (room : Room) (placeName : string) :
  truthy (letterInPlay room)
  && negb (bool_decide (toLowerCase (charAt placeName 0)
                        = toLowerCase (letterInPlay room))) = true
  ↔ failsLetter room placeName.
Proof.
  unfold failsLetter, sameIgnoringCase. rewrite charAt_first.
  rewrite andb_true_iff, negb_true_iff, bool_decide_eq_false, truthy_true. done.
Qed.

Lemma history_test (room : Room) (placeName : string) :
  some (fun entry => bool_decide (toLowerCase (place entry) = toLowerCase placeName))
       (history room) = true
  ↔ failsUnused room placeName.
Proof.
  unfold failsUnused, sameIgnoringCase. rewrite some_true.
  split; intros (e & He & Hp); exists e; split; try done.
  - by apply bool_decide_eq_true in Hp.
  - by apply bool_decide_eq_true.
Qed.

(** The handler, case by case, for a socket bound to a registered room whose
    turn pointer designates a player. *)
Lemma submitPlace_cases (socket placeName : string) (now : Z) (s : Server)
    (roomId : string) (room : Room) (currentPlayer : Player) :
  boundRoom socket s = Some (roomId, room) →
  at_index (players room) (currentPlayerIndex room) = Some currentPlayer →
  let p := trim placeName in
  let run := submitPlace socket placeName now s in
  (failsTurn socket currentPlayer ∧ run = refusal socket NotYourTurn s)
  ∨ (¬ failsTurn socket currentPlayer ∧ failsValidity p
     ∧ run = refusal socket InvalidPlace s)
  ∨ (¬ failsTurn socket currentPlayer ∧ ¬ failsValidity p ∧ failsLetter room p
     ∧ run = refusal socket (WrongLetter (letterInPlay room)) s)
  ∨ (¬ failsTurn socket currentPlayer ∧ ¬ failsValidity p ∧ ¬ failsLetter room p
     ∧ failsUnused room p ∧ run = refusal socket AlreadyUsed s)
  ∨ (¬ failsTurn socket currentPlayer ∧ ¬ failsValidity p ∧ ¬ failsLetter room p
     ∧ ¬ failsUnused room p
     ∧ run = acceptance roomId (acceptPlace currentPlayer p now room) s).
Proof.
  intros Hbound Hcur p run. subst run. unfold submitPlace.
  rewrite Hbound, Hcur. fold p. unfold failsTurn, failsValidity.
  case_bool_decide as Hid; simpl; [|by left].
  right. destruct (isValidPlace p) eqn:Hvalid; simpl; [|left; naive_solver].
  right.
  destruct (truthy (letterInPlay room)
            && negb (bool_decide (toLowerCase (charAt p 0)
                                  = toLowerCase (letterInPlay room)))) eqn:Hletter.
  { left. apply letter_test in Hletter. naive_solver. }
  right.
  assert (¬ failsLetter room p) as Hl.
  { intros Hf. apply letter_test in Hf. congruence. }
  destruct (some _ (history room)) eqn:Hused.
  { left. apply history_test in Hused. naive_solver. }
  right.
  assert (¬ failsUnused room p) as Hu.
  { intros Hf. apply history_test in Hf. congruence. }
  split_and!; try done. congruence.
Qed.

End Submit.

Section SubmitClaims.

Context {js : StringPrototype} {geo : CountryStateCity}.

(** C1. A submission from the current player that passes the four checks
    leaves, under the same identifier, a room whose [letterInPlay] is the
    uppercased last character of the trimmed place name, whose history has
    gained exactly one entry (the acting player's user name, the trimmed
    place, the time stamp), in which the acting player's score has grown by
    exactly 1 and nobody else has changed, and whose [currentPlayerIndex] is
    the old one plus 1 modulo the number of players; the room is broadcast. *)
Theorem submitPlace_accepted (socket placeName : string) (now : Z) (s : Server)
    (roomId : string) (room : Room) (currentPlayer : Player) :
  boundRoom socket s = Some (roomId, room) →
  at_index (players room) (currentPlayerIndex room) = Some currentPlayer →
  ¬ failsTurn socket currentPlayer →
  ¬ failsValidity (trim placeName) →
  ¬ failsLetter room (trim placeName) →
  ¬ failsUnused room (trim placeName) →
  ∃ room',
    gameRooms (after (submitPlace socket placeName now s)) !! roomId = Some room'
    ∧ letterInPlay room' = toUpperCase (lastCharacter (trim placeName))
    ∧ history room'
      = history room ++ [mkEntry (username currentPlayer) (trim placeName) now]
    ∧ players room'
      = <[Z.to_nat (currentPlayerIndex room) :=
            mkPlayer (id currentPlayer) (username currentPlayer)
                     (score currentPlayer + 1)]> (players room)
    ∧ currentPlayerIndex room'
      = (currentPlayerIndex room + 1) `mod` Z.of_nat (length (players room))
    ∧ started room' = started room
    ∧ sent (submitPlace socket placeName now s) = [EmitRoom roomId (updateGame room')].
Proof.
  intros Hbound Hcur Ht Hv Hl Hu.
  destruct (submitPlace_cases socket placeName now s roomId room currentPlayer
              Hbound Hcur) as [[? _]|[(_ & ? & _)|[(_ & _ & ? & _)|[(_ & _ & _ & ? & _)|
                                 (_ & _ & _ & _ & ->)]]]]; try done.
  apply at_index_Some in Hcur as [Hrange Hlook].
  exists (acceptPlace currentPlayer (trim placeName) now room).
  simpl. rewrite lookup_insert_eq. split_and!; try done.
  - by rewrite charAt_last.
  - apply list_eq. intros i. rewrite list_lookup_alter.
    destruct (decide (i = Z.to_nat (currentPlayerIndex room))) as [->|Hne].
    + rewrite Hlook. rewrite decide_True by done.
      rewrite list_lookup_insert_eq; [reflexivity|].
      by apply lookup_lt_Some in Hlook.
    + rewrite list_lookup_insert_ne by done.
      destruct (decide (Z.to_nat (currentPlayerIndex room) = i)); [congruence|done].
  - apply Z.rem_mod_nonneg; lia.
Qed.

(** C2. A refused submission, whatever the reason, changes nothing in the
    server state (so no field of any room changes) and sends exactly one
    thing: the error, to the submitting socket; nothing is broadcast. *)
Theorem submitPlace_refused (socket placeName : string) (now : Z) (s : Server)
    (target : string) (e : TurnError) :
  EmitError target e ∈ sent (submitPlace socket placeName now s) →
  after (submitPlace socket placeName now s) = s
  ∧ sent (submitPlace socket placeName now s) = [EmitError socket e]
  ∧ (∀ x, x ∈ sent (submitPlace socket placeName now s) → isBroadcast x = false).
Proof.
  intros Hin.
  destruct (boundRoom socket s) as [[roomId room]|] eqn:Hbound; cycle 1.
  { unfold submitPlace in Hin. rewrite Hbound in Hin. by apply elem_of_nil in Hin. }
  destruct (at_index (players room) (currentPlayerIndex room)) as [cur|] eqn:Hcur; cycle 1.
  { unfold submitPlace in Hin. rewrite Hbound, Hcur in Hin. by apply elem_of_nil in Hin. }
  destruct (submitPlace_cases socket placeName now s roomId room cur Hbound Hcur)
    as [[_ Hrun]|[(_ & _ & Hrun)|[(_ & _ & _ & Hrun)|[(_ & _ & _ & _ & Hrun)|
        (_ & _ & _ & _ & Hrun)]]]]; rewrite Hrun in Hin |- *; simpl in *;
    apply list_elem_of_singleton in Hin; try discriminate;
    injection Hin as -> ->;
    (split_and!; [done|done|]);
    intros x Hx; apply list_elem_of_singleton in Hx; by subst x.
Qed.

(** C3. The checks are made in the order turn, validity (of the trimmed
    name), letter (only when [letterInPlay] is not empty, on the first
    character, ignoring case), duplicate (against every history entry,
    ignoring case): each reason is reported exactly when its check fails and
    all the checks before it pass, the report is the only thing sent, and the
    submission is accepted exactly when no check fails. *)
Theorem submitPlace_check_order (socket placeName : string) (now : Z) (s : Server)
    (roomId : string) (room : Room) (currentPlayer : Player) :
  boundRoom socket s = Some (roomId, room) →
  at_index (players room) (currentPlayerIndex room) = Some currentPlayer →
  let p := trim placeName in
  let out := sent (submitPlace socket placeName now s) in
  (out = [EmitError socket NotYourTurn] ↔ failsTurn socket currentPlayer)
  ∧ (out = [EmitError socket InvalidPlace]
     ↔ ¬ failsTurn socket currentPlayer ∧ failsValidity p)
  ∧ (out = [EmitError socket (WrongLetter (letterInPlay room))]
     ↔ ¬ failsTurn socket currentPlayer ∧ ¬ failsValidity p ∧ failsLetter room p)
  ∧ (out = [EmitError socket AlreadyUsed]
     ↔ ¬ failsTurn socket currentPlayer ∧ ¬ failsValidity p ∧ ¬ failsLetter room p
       ∧ failsUnused room p)
  ∧ ((∃ room', out = [EmitRoom roomId (updateGame room')])
     ↔ ¬ failsTurn socket currentPlayer ∧ ¬ failsValidity p ∧ ¬ failsLetter room p
       ∧ ¬ failsUnused room p).
Proof.
  intros Hbound Hcur p out. subst out.
  destruct (submitPlace_cases socket placeName now s roomId room currentPlayer
              Hbound Hcur)
    as [[Ht Hrun]|[(Ht & Hv & Hrun)|[(Ht & Hv & Hl & Hrun)|[(Ht & Hv & Hl & Hu & Hrun)|
        (Ht & Hv & Hl & Hu & Hrun)]]]]; fold p in Hrun |- *; rewrite Hrun; simpl;
    (split_and!; (split; [intros Heq|intros Hcond]);
     try done; try (exfalso; tauto);
     try (destruct Heq as [? Heq]; discriminate); try (by eexists)).
Qed.

End SubmitClaims.

(** ** Starting a game *)

Section Start.

Context {js : StringPrototype} {geo : CountryStateCity}.

Lemma setRooms_same (s : Server) (roomId : string) (room : Room) :
  gameRooms s !! roomId = Some room →
  setRooms (<[roomId := room]> (gameRooms s)) s = s.
Proof.
  intros Hroom. unfold setRooms. rewrite insert_id by done. by destruct s.
Qed.

Lemma boundRoom_setRooms (socket : string) (s : Server) (roomId : string)
    (room room' : Room) :
  boundRoom socket s = Some (roomId, room) →
  boundRoom socket (setRooms (<[roomId := room']> (gameRooms s)) s)
  = Some (roomId, room').
Proof.
  intros (Hsock & Hne & Hroom)%boundRoom_Some. apply boundRoom_Some.
  simpl. by rewrite lookup_insert_eq.
Qed.

(** C4, as amended. For a socket bound to a registered room, [startGame]
    leaves under the same identifier a room with [started = true] and an
    empty [letterInPlay], with the same [currentPlayerIndex], players and
    history, and broadcasts it.  It is idempotent: a second [startGame]
    leaves the state of the first.  On a room that is already started the
    state is unchanged exactly when [letterInPlay] was already empty. *)
Theorem startGame_effect (socket : string) (s : Server) (roomId : string) (room : Room) :
  boundRoom socket s = Some (roomId, room) →
  let s1 := after (startGame socket s) in
  (∃ room',
     gameRooms s1 !! roomId = Some room'
     ∧ started room' = true
     ∧ letterInPlay room' = EmptyString
     ∧ currentPlayerIndex room' = currentPlayerIndex room
     ∧ players room' = players room
     ∧ history room' = history room
     ∧ sent (startGame socket s) = [EmitRoom roomId (gameStarted room')]
     ∧ sent (startGame socket s1) = [EmitRoom roomId (gameStarted room')])
  ∧ after (startGame socket s1) = s1
  ∧ (started room = true → (s1 = s ↔ letterInPlay room = EmptyString)).
Proof.
  intros Hbound s1.
  assert (s1 = setRooms (<[roomId := startRoom room]> (gameRooms s)) s) as Hs1.
  { subst s1. unfold startGame. by rewrite Hbound. }
  assert (boundRoom socket s1 = Some (roomId, startRoom room)) as Hbound1.
  { rewrite Hs1. by apply boundRoom_setRooms with room. }
  assert (gameRooms s1 !! roomId = Some (startRoom room)) as Hroom1.
  { by apply boundRoom_Some in Hbound1 as (_ & _ & ?). }
  split_and!.
  - exists (startRoom room). split_and!; try done.
    + unfold startGame. by rewrite Hbound.
    + unfold startGame. by rewrite Hbound1.
  - unfold startGame. rewrite Hbound1. simpl.
    change (startRoom (startRoom room)) with (startRoom room).
    by apply setRooms_same.
  - intros Hstarted. split.
    + intros Heq. rewrite Heq in Hroom1.
      apply boundRoom_Some in Hbound as (_ & _ & Hroom).
      rewrite Hroom in Hroom1. injection Hroom1 as Hr. by rewrite Hr.
    + intros Hletter. rewrite Hs1.
      apply boundRoom_Some in Hbound as (_ & _ & Hroom).
      replace (startRoom room) with room; [by apply setRooms_same|].
      destruct room; simpl in *; by subst.
Qed.

(** C5, as amended. [submitPlace] does not read [started]: in a room that is
    not started a submission that passes the four checks is accepted (the
    history gains the entry, and the room stays not started), and a
    submission that fails one of them changes nothing. *)
Theorem submitPlace_in_lobby (socket placeName : string) (now : Z) (s : Server)
    (roomId : string) (room : Room) (currentPlayer : Player) :
  boundRoom socket s = Some (roomId, room) →
  started room = false →
  at_index (players room) (currentPlayerIndex room) = Some currentPlayer →
  let p := trim placeName in
  let passes := ¬ failsTurn socket currentPlayer ∧ ¬ failsValidity p
                ∧ ¬ failsLetter room p ∧ ¬ failsUnused room p in
  (passes →
   gameRooms (after (submitPlace socket placeName now s)) !! roomId
   = Some (acceptPlace currentPlayer p now room)
   ∧ history (acceptPlace currentPlayer p now room)
     = history room ++ [mkEntry (username currentPlayer) p now]
   ∧ started (acceptPlace currentPlayer p now room) = false)
  ∧ (¬ passes → after (submitPlace socket placeName now s) = s).
Proof.
  intros Hbound Hlobby Hcur p passes. subst p passes.
  destruct (submitPlace_cases socket placeName now s roomId room currentPlayer
              Hbound Hcur)
    as [[Ht Hrun]|[(Ht & Hv & Hrun)|[(Ht & Hv & Hl & Hrun)|[(Ht & Hv & Hl & Hu & Hrun)|
        (Ht & Hv & Hl & Hu & Hrun)]]]]; rewrite Hrun; simpl.
  1-4: split; [tauto|done].
  split; [|tauto]. intros _. by rewrite lookup_insert_eq.
Qed.

End Start.

(** ** Leaving and joining *)

Section Membership.

Context {js : StringPrototype} {geo : CountryStateCity}.

(** The test of the repair rule computes [repairedIndex]. *)
Lemma repair_test (i : nat) (current : Z) :
  (if (Z.of_nat i <=? current) && (current >? 0) then current - 1 else current)
  = repairedIndex i current.
Proof.
  unfold repairedIndex.
  destruct (Z.leb_spec (Z.of_nat i) current), (Z.gtb_spec current 0); simpl;
    case_decide; lia.
Qed.

Lemma disconnect_found (socket : string) (s : Server) (roomId : string)
    (room : Room) (i : nat) :
  boundRoom socket s = Some (roomId, room) →
  findIndex (fun p => bool_decide (id p = socket)) (players room) = Some i →
  disconnect socket s
  = if bool_decide (length (delete i (players room)) = 0%nat) then
      mkRun (setRooms (delete roomId (gameRooms s)) s) [] Returned
    else
      mkRun (setRooms (<[roomId := removeAt i room]> (gameRooms s)) s)
            [EmitRoom roomId (playerLeft socket (removeAt i room))] Returned.
Proof. intros Hbound Hfind. unfold disconnect. by rewrite Hbound, Hfind. Qed.

(** The identifiers registered after a request were registered before it,
    except the one that a [createRoom] has just drawn. *)
Lemma handle_keys (q : Request) (s : Server) (key : string) :
  is_Some (gameRooms (after (handle q s)) !! key) →
  is_Some (gameRooms s !! key)
  ∨ ∃ socket name uuid, q = CreateRoom socket name uuid ∧ key = substring0 6 uuid.
Proof.
  destruct q as [socket name uuid|socket rid name|socket|socket placeName now|socket];
    simpl.
  - unfold createRoom, createGameRoom. rewrite lookup_insert_eq. simpl.
    destruct (decide (substring0 6 uuid = key)) as [<-|Hne].
    + intros _. right. by exists socket, name, uuid.
    + rewrite !lookup_insert_ne by done. by left.
  - unfold joinRoom. destruct (gameRooms s !! rid) as [room|] eqn:Hroom.
    + destruct (started room); [by left|]. simpl.
      destruct (decide (rid = key)) as [<-|Hne]; [by left; rewrite Hroom|].
      rewrite lookup_insert_ne by done. by left.
    + destruct (inheritedMember rid); by left.
  - unfold startGame.
    destruct (boundRoom socket s) as [[rid room]|] eqn:Hbound; [|by left]. simpl.
    apply boundRoom_Some in Hbound as (_ & _ & Hroom).
    destruct (decide (rid = key)) as [<-|Hne]; [by left; rewrite Hroom|].
    rewrite lookup_insert_ne by done. by left.
  - destruct (boundRoom socket s) as [[rid room]|] eqn:Hbound; cycle 1.
    { unfold submitPlace. rewrite Hbound. by left. }
    destruct (at_index (players room) (currentPlayerIndex room)) as [cur|] eqn:Hcur;
      cycle 1.
    { unfold submitPlace. rewrite Hbound, Hcur. by left. }
    destruct (submitPlace_cases socket placeName now s rid room cur Hbound Hcur)
      as [[_ ->]|[(_ & _ & ->)|[(_ & _ & _ & ->)|[(_ & _ & _ & _ & ->)|
          (_ & _ & _ & _ & ->)]]]]; simpl; try by left.
    apply boundRoom_Some in Hbound as (_ & _ & Hroom).
    destruct (decide (rid = key)) as [<-|Hne]; [by left; rewrite Hroom|].
    rewrite lookup_insert_ne by done. by left.
  - unfold disconnect.
    destruct (boundRoom socket s) as [[rid room]|] eqn:Hbound; [|by left].
    apply boundRoom_Some in Hbound as (_ & _ & Hroom).
    destruct (findIndex _ (players room)); [|by left].
    case_bool_decide; simpl.
    + destruct (decide (rid = key)) as [<-|Hne]; [by left; rewrite Hroom|].
      rewrite lookup_delete_ne by done. by left.
    + destruct (decide (rid = key)) as [<-|Hne]; [by left; rewrite Hroom|].
      rewrite lookup_insert_ne by done. by left.
Qed.

(** In a reachable state every registered identifier was drawn by
    [createGameRoom]: it has at most six characters, and so is not the name
    of a member inherited from [Object.prototype]. *)
Lemma reachable_ids_short (s : Server) (key : string) :
  reachable s → is_Some (gameRooms s !! key) → (String.length key <= 6)%nat.
Proof.
  intros Hreach. revert key. induction Hreach as [|s q _ IH]; intros key Hkey.
  - simpl in Hkey. rewrite lookup_empty in Hkey. by destruct Hkey.
  - apply handle_keys in Hkey as [Hold|(socket & name & uuid & _ & ->)].
    + by apply IH.
    + apply substring0_length.
Qed.

Lemma reachable_ids_not_inherited (s : Server) (key : string) :
  reachable s → is_Some (gameRooms s !! key) → inheritedMember key = false.
Proof.
  intros Hreach Hkey. apply short_not_inherited. by apply (reachable_ids_short s).
Qed.

(** C6. When the socket of the player at index [i] disconnects, exactly that
    player is deleted from [players]; the turn pointer is decremented when
    [i <= currentPlayerIndex] and [currentPlayerIndex > 0] and is otherwise
    unchanged; and when no player is left the room is removed from the
    registry, so that a later [joinRoom] with its identifier is answered
    ["Room not found"].  The last point is for an identifier that is not the
    name of a member inherited from [Object.prototype], as is the identifier
    of every room of a reachable state. *)
Theorem disconnect_removes_player (socket : string) (s : Server) (roomId : string)
    (room : Room) (i : nat) :
  boundRoom socket s = Some (roomId, room) →
  findIndex (fun p => bool_decide (id p = socket)) (players room) = Some i →
  let s' := after (handle (Disconnect socket) s) in
  let rest := take i (players room) ++ drop (S i) (players room) in
  (∃ leaver, id leaver = socket
             ∧ players room = take i (players room) ++ leaver :: drop (S i) (players room))
  ∧ (rest ≠ [] →
     gameRooms s' !! roomId
     = Some {| players := rest;
               history := history room;
               currentPlayerIndex := repairedIndex i (currentPlayerIndex room);
               letterInPlay := letterInPlay room;
               started := started room |})
  ∧ (rest = [] →
     gameRooms s' !! roomId = None
     ∧ (inheritedMember roomId = false →
        ∀ socket' name,
          joinRoom socket' roomId name s'
          = mkRun s' [Callback socket' (AckFailure "Room not found")] Returned))
  ∧ (reachable s → inheritedMember roomId = false).
Proof.
  intros Hbound Hfind s' rest.
  assert (rest = delete i (players room)) as Hrest
    by (subst rest; by rewrite delete_take_drop).
  pose proof (disconnect_found socket s roomId room i Hbound Hfind) as Hrun.
  apply findIndex_Some in Hfind as (leaver & Hlook & Hid & _).
  apply bool_decide_eq_true in Hid.
  split_and!.
  - exists leaver. split; [done|]. by rewrite take_drop_middle.
  - intros Hne. subst s'. simpl. rewrite Hrun.
    rewrite bool_decide_eq_false_2; cycle 1.
    { rewrite <- Hrest. by destruct rest. }
    simpl. rewrite lookup_insert_eq. unfold removeAt.
    by rewrite repair_test, <- Hrest.
  - intros Hnil. subst s'. simpl. rewrite Hrun.
    rewrite bool_decide_eq_true_2 by (by rewrite <- Hrest, Hnil).
    simpl. rewrite lookup_delete_eq. split; [done|].
    intros Hown socket' name. unfold joinRoom. simpl.
    by rewrite lookup_delete_eq, Hown.
  - intros Hreach. apply (reachable_ids_not_inherited s); [done|].
    apply boundRoom_Some in Hbound as (_ & _ & Hroom). by rewrite Hroom.
Qed.

(** C9. [joinRoom] with an identifier that is not registered is answered
    ["Room not found"], provided the identifier is not the name of a member
    inherited from [Object.prototype]; with such a name and no room
    registered under it, the handler passes both guards, joins and binds the
    socket, and throws at [players.push], so it is not answered at all.  With
    the identifier of a started room it is answered
    ["Game already started"]; in both answered cases the server state is
    unchanged.  Otherwise, whatever the number of players, a player with the
    socket's identifier, the given name and score 0 is appended at the end of
    [players], nothing else in the room changes, and the join succeeds. *)
Theorem joinRoom_outcomes (socket roomId name : string) (s : Server) :
  (gameRooms s !! roomId = None → inheritedMember roomId = false →
   joinRoom socket roomId name s
   = mkRun s [Callback socket (AckFailure "Room not found")] Returned)
  ∧ (gameRooms s !! roomId = None → inheritedMember roomId = true →
     joinRoom socket roomId name s
     = mkRun (bindSocket socket roomId s) [SocketJoin socket roomId] TypeError)
  ∧ (∀ room, gameRooms s !! roomId = Some room → started room = true →
     joinRoom socket roomId name s
     = mkRun s [Callback socket (AckFailure "Game already started")] Returned)
  ∧ (∀ room, gameRooms s !! roomId = Some room → started room = false →
     let room' := {| players := players room ++ [mkPlayer socket name 0];
                     history := history room;
                     currentPlayerIndex := currentPlayerIndex room;
                     letterInPlay := letterInPlay room;
                     started := false |} in
     gameRooms (after (joinRoom socket roomId name s)) !! roomId = Some room'
     ∧ (∀ other, other ≠ roomId →
          gameRooms (after (joinRoom socket roomId name s)) !! other
          = gameRooms s !! other)
     ∧ sent (joinRoom socket roomId name s)
       = [SocketJoin socket roomId; Callback socket (AckJoined room');
          EmitRoom roomId (updateRoom room')]
     ∧ completion (joinRoom socket roomId name s) = Returned).
Proof.
  unfold joinRoom. split_and!.
  - by intros -> ->.
  - by intros -> ->.
  - by intros room -> ->.
  - intros room Hroom Hstarted. cbv zeta. rewrite Hroom, Hstarted. simpl.
    rewrite lookup_insert_eq. unfold pushPlayer. rewrite Hstarted.
    split_and!; try done.
    intros other Hne. by rewrite lookup_insert_ne.
Qed.

(** C10. When the socket has no [roomId], or has one that is not registered,
    [startGame] and [submitPlace] return at once: the state is unchanged and
    nothing at all is sent, neither an error nor a broadcast. *)
Theorem unbound_socket_is_ignored (socket placeName : string) (now : Z) (s : Server) :
  socketRoomId s !! socket = None
  ∨ (∃ roomId, socketRoomId s !! socket = Some roomId ∧ gameRooms s !! roomId = None) →
  startGame socket s = mkRun s [] Returned
  ∧ submitPlace socket placeName now s = mkRun s [] Returned.
Proof.
  intros Hunbound%boundRoom_None.
  unfold startGame, submitPlace. by rewrite Hunbound.
Qed.

End Membership.

(** ** Invariants of the reachable states *)

Section Invariants.

Context {js : StringPrototype} {geo : CountryStateCity}.

(** Every room registered after a request was registered before it and is
    unchanged, or has just been created with its first player, or is the
    result of one [roomChange] on the room registered under the same
    identifier. *)
Lemma handle_room (q : Request) (s : Server) (roomId : string) (room' : Room) :
  gameRooms (after (handle q s)) !! roomId = Some room' →
  gameRooms s !! roomId = Some room'
  ∨ (∃ socket name, room' = pushPlayer socket name emptyRoom)
  ∨ (∃ room, gameRooms s !! roomId = Some room ∧ roomChange room room').
Proof.
  destruct q as [socket name uuid|socket rid name|socket|socket placeName now|socket];
    simpl.
  - unfold createRoom, createGameRoom. rewrite lookup_insert_eq. simpl.
    destruct (decide (substring0 6 uuid = roomId)) as [->|Hne].
    + rewrite lookup_insert_eq. intros [= <-]. right; left. by exists socket, name.
    + rewrite !lookup_insert_ne by done. by left.
  - unfold joinRoom. destruct (gameRooms s !! rid) as [room|] eqn:Hroom;
      [|destruct (inheritedMember rid); by left].
    destruct (started room); [by left|]. simpl.
    destruct (decide (rid = roomId)) as [->|Hne].
    + rewrite lookup_insert_eq. intros [= <-]. right; right.
      exists room. split; [done|]. constructor.
    + rewrite lookup_insert_ne by done. by left.
  - unfold startGame.
    destruct (boundRoom socket s) as [[rid room]|] eqn:Hbound; [|by left]. simpl.
    apply boundRoom_Some in Hbound as (_ & _ & Hroom).
    destruct (decide (rid = roomId)) as [->|Hne].
    + rewrite lookup_insert_eq. intros [= <-]. right; right.
      exists room. split; [done|]. constructor.
    + rewrite lookup_insert_ne by done. by left.
  - destruct (boundRoom socket s) as [[rid room]|] eqn:Hbound; cycle 1.
    { unfold submitPlace. rewrite Hbound. by left. }
    destruct (at_index (players room) (currentPlayerIndex room)) as [cur|] eqn:Hcur;
      cycle 1.
    { unfold submitPlace. rewrite Hbound, Hcur. by left. }
    destruct (submitPlace_cases socket placeName now s rid room cur Hbound Hcur)
      as [[_ ->]|[(_ & _ & ->)|[(_ & _ & _ & ->)|[(_ & _ & _ & _ & ->)|
          (_ & _ & _ & Hu & ->)]]]]; simpl; try by left.
    apply boundRoom_Some in Hbound as (_ & _ & Hroom).
    destruct (decide (rid = roomId)) as [->|Hne].
    + rewrite lookup_insert_eq. intros [= <-]. right; right.
      exists room. split; [done|]. by constructor.
    + rewrite lookup_insert_ne by done. by left.
  - destruct (boundRoom socket s) as [[rid room]|] eqn:Hbound; cycle 1.
    { unfold disconnect. rewrite Hbound. by left. }
    destruct (findIndex (fun p => bool_decide (id p = socket)) (players room))
      as [i|] eqn:Hfind; cycle 1.
    { unfold disconnect. rewrite Hbound, Hfind. by left. }
    rewrite (disconnect_found socket s rid room i Hbound Hfind).
    apply findIndex_Some in Hfind as (leaver & Hlook & _).
    apply boundRoom_Some in Hbound as (_ & _ & Hroom).
    case_bool_decide as Hempty; simpl.
    + destruct (decide (rid = roomId)) as [->|Hne].
      * by rewrite lookup_delete_eq.
      * rewrite lookup_delete_ne by done. by left.
    + destruct (decide (rid = roomId)) as [->|Hne].
      * rewrite lookup_insert_eq. intros [= <-]. right; right.
        exists room. split; [done|]. constructor.
        -- by apply lookup_lt_Some in Hlook.
        -- intros Hnil. apply Hempty. by rewrite Hnil.
      * rewrite lookup_insert_ne by done. by left.
Qed.

(** A property of rooms that holds of a new room with its first player and
    is kept by every [roomChange] holds of every room of a reachable state. *)
Lemma reachable_everyRoom (P : Room → Prop) (s : Server) :
  (∀ socket name, P (pushPlayer socket name emptyRoom)) →
  (∀ room room', roomChange room room' → P room → P room') →
  reachable s → everyRoom P s.
Proof.
  intros Hnew Hkeep Hreach. induction Hreach as [|s q _ IH].
  - intros roomId room Hroom. simpl in Hroom. by rewrite lookup_empty in Hroom.
  - intros roomId room' Hroom'.
    apply handle_room in Hroom' as [Hsame|[(socket & name & ->)|(room & Hroom & Hchange)]].
    + by apply (IH roomId).
    + apply Hnew.
    + apply (Hkeep room); [done|]. by apply (IH roomId).
Qed.

Lemma reachable_runAll (qs : list Request) (s : Server) :
  reachable s → reachable (runAll qs s).
Proof.
  revert s. induction qs as [|q qs IH]; intros s Hs; [done|].
  simpl. apply IH. by constructor.
Qed.

Lemma roomChange_pointer (room room' : Room) :
  roomChange room room' → turnPointerInRange room → turnPointerInRange room'.
Proof.
  unfold turnPointerInRange.
  intros [socket name r|r|cur p now r Hcur Hu|i r Hi Hrest]; simpl; intros Hrange.
  - rewrite length_app. simpl. lia.
  - done.
  - rewrite length_alter. apply Z.rem_bound_pos; lia.
  - rewrite repair_test. unfold repairedIndex.
    rewrite length_delete by (by apply lookup_lt_is_Some).
    assert (length (players r) ≠ 1)%nat as Hlen.
    { intros Hone. apply Hrest. destruct (players r) as [|x [|y l]]; try done.
      simpl in Hi. by replace i with 0%nat by lia. }
    case_decide; lia.
Qed.

Lemma roomChange_places (room room' : Room) :
  roomChange room room' → distinctPlaces room → distinctPlaces room'.
Proof.
  intros [socket name r|r|cur p now r Hcur Hu|i r Hi Hrest]; try done.
  unfold distinctPlaces. simpl. intros Hdistinct i j e1 e2 Hi Hj Hsame.
  apply lookup_snoc_Some in Hi as [[Hilt Hi]|[-> <-]];
    apply lookup_snoc_Some in Hj as [[Hjlt Hj]|[-> <-]].
  - by apply (Hdistinct i j e1 e2).
  - exfalso. apply Hu. exists e1. split; [|done].
    apply list_elem_of_lookup. by exists i.
  - exfalso. apply Hu. exists e2. split; [|done].
    apply list_elem_of_lookup. by exists j.
  - done.
Qed.

(** No registered room of a reachable state is without players, and its turn
    pointer designates one of them. *)
Lemma reachable_pointer (s : Server) :
  reachable s → everyRoom turnPointerInRange s.
Proof.
  apply reachable_everyRoom.
  - intros socket name. unfold turnPointerInRange. simpl. lia.
  - apply roomChange_pointer.
Qed.

(** In a reachable state a handler ends with an uncaught [TypeError] only
    when it is [joinRoom] and the identifier is the name of a member inherited
    from [Object.prototype]. *)
Lemma reachable_returns (q : Request) (s : Server) :
  reachable s →
  completion (handle q s) = TypeError →
  ∃ socket roomId name,
    q = JoinRoom socket roomId name ∧ inheritedMember roomId = true.
Proof.
  intros Hreach.
  destruct q as [socket name uuid|socket rid name|socket|socket placeName now|socket];
    simpl.
  - unfold createRoom, createGameRoom. by rewrite lookup_insert_eq.
  - unfold joinRoom. destruct (gameRooms s !! rid) as [room|].
    + by destruct (started room).
    + destruct (inheritedMember rid) eqn:Hinherited; [|done].
      intros _. by exists socket, rid, name.
  - unfold startGame. by destruct (boundRoom socket s) as [[rid room]|].
  - destruct (boundRoom socket s) as [[rid room]|] eqn:Hbound; cycle 1.
    { unfold submitPlace. by rewrite Hbound. }
    destruct (at_index (players room) (currentPlayerIndex room)) as [cur|] eqn:Hcur.
    + destruct (submitPlace_cases socket placeName now s rid room cur Hbound Hcur)
        as [[_ ->]|[(_ & _ & ->)|[(_ & _ & _ & ->)|[(_ & _ & _ & _ & ->)|
            (_ & _ & _ & _ & ->)]]]]; done.
    + exfalso. apply boundRoom_Some in Hbound as (_ & _ & Hroom).
      pose proof (reachable_pointer s Hreach rid room Hroom) as Hrange.
      unfold turnPointerInRange in Hrange.
      destruct (lookup_lt_is_Some_2 (players room)
                  (Z.to_nat (currentPlayerIndex room))) as [cur Hlook]; [lia|].
      assert (at_index (players room) (currentPlayerIndex room) = Some cur) as Hsome
        by (by apply at_index_Some).
      congruence.
  - unfold disconnect. destruct (boundRoom socket s) as [[rid room]|]; [|done].
    destruct (findIndex _ (players room)); [|done]. by case_bool_decide.
Qed.

(** C7. In every state reachable by create, join, start, submit and
    disconnect requests, every registered room has no player or has its
    [currentPlayerIndex] in [0, len(players)); and this still holds after
    any further request. *)
Theorem turn_pointer_invariant (s : Server) :
  reachable s →
  everyRoom turnPointerValid s
  ∧ ∀ q, everyRoom turnPointerValid (after (handle q s)).
Proof.
  intros Hreach.
  assert (∀ t, reachable t → everyRoom turnPointerValid t) as Hvalid.
  { intros t Ht roomId room Hroom. right. by apply (reachable_pointer t Ht roomId). }
  split; [by apply Hvalid|].
  intros q. apply Hvalid. by constructor.
Qed.

(** C8. In every reachable state no two history entries of a room have
    places that are equal up to case; and a submission whose trimmed place
    is equal up to case to the place of a history entry is never appended:
    if it passes the earlier checks it is refused with [AlreadyUsed]. *)
Theorem history_places_distinct (s : Server) :
  reachable s →
  everyRoom distinctPlaces s
  ∧ ∀ socket placeName now roomId room,
      boundRoom socket s = Some (roomId, room) →
      failsUnused room (trim placeName) →
      after (submitPlace socket placeName now s) = s
      ∧ ∀ currentPlayer,
          at_index (players room) (currentPlayerIndex room) = Some currentPlayer →
          ¬ failsTurn socket currentPlayer →
          ¬ failsValidity (trim placeName) →
          ¬ failsLetter room (trim placeName) →
          sent (submitPlace socket placeName now s) = [EmitError socket AlreadyUsed].
Proof.
  intros Hreach. split.
  - revert Hreach. apply reachable_everyRoom.
    + intros socket name i j e1 e2 Hi. simpl in Hi. by rewrite lookup_nil in Hi.
    + apply roomChange_places.
  - intros socket placeName now roomId room Hbound Hused.
    destruct (at_index (players room) (currentPlayerIndex room)) as [cur|] eqn:Hcur;
      cycle 1.
    { split; [|done]. unfold submitPlace. by rewrite Hbound, Hcur. }
    destruct (submitPlace_cases socket placeName now s roomId room cur Hbound Hcur)
      as [[Ht ->]|[(_ & Hv & ->)|[(_ & _ & Hl & ->)|[(_ & _ & _ & _ & ->)|
          (_ & _ & _ & Hu & _)]]]]; simpl; [..|by destruct Hu];
      (split; [done|]; intros ? [= <-]; intros; tauto).
Qed.

End Invariants.

(** ** The handlers at work on a concrete server *)

Import JsString.Ascii7 Demo.

Example lobby_room : boundRoom "s1" lobby = Some ("3f2a9c"%string, lobbyRoom).
Proof. vm_compute. reflexivity. Qed.

Example game_room : boundRoom "s1" game = Some ("3f2a9c"%string, gameRoom).
Proof. vm_compute. reflexivity. Qed.

Example played_room : boundRoom "s2" played = Some ("3f2a9c"%string, playedRoom).
Proof. vm_compute. reflexivity. Qed.

Example trio_room : boundRoom "s2" trio = Some ("3f2a9c"%string, trioRoom).
Proof. vm_compute. reflexivity. Qed.

Example solo_gone : gameRooms (after (handle (Disconnect "s1") solo)) = ∅.
Proof. vm_compute. reflexivity. Qed.

Example stale_socket :
  socketRoomId stale !! "s1"%string = Some "3f2a9c"%string
  ∧ gameRooms stale !! "3f2a9c"%string = None.
Proof. split; vm_compute; reflexivity. Qed.

Example scenario_brazil :
  sent (submitPlace "s2" "Brazil" 2000 played) = [EmitError "s2" (WrongLetter "A")].
Proof. vm_compute. reflexivity. Qed.

Example scenario_again :
  sent (submitPlace "s2" "ARGENTINA" 2000 played) = [EmitError "s2" AlreadyUsed].
Proof. vm_compute. reflexivity. Qed.

Example solo_room : boundRoom "s1" solo = Some ("3f2a9c"%string, soloRoom).
Proof. vm_compute. reflexivity. Qed.

Lemma demo_reachable (qs : list Request) : reachable (runAll qs initial).
Proof. apply reachable_runAll. constructor. Qed.

(** *** C1 at work: the first move of a game *)
Lemma submitPlace_accepted_witness :
  ∃ room',
    gameRooms (after (submitPlace "s1" " Argentina " 1000 game)) !! "3f2a9c"%string
    = Some room'
    ∧ letterInPlay room' = "A"%string
    ∧ history room' = [mkEntry "Ana" "Argentina" 1000]
    ∧ players room' = [mkPlayer "s1" "Ana" 1; mkPlayer "s2" "Bo" 0]
    ∧ currentPlayerIndex room' = 1.
Proof.
  destruct (submitPlace_accepted "s1" " Argentina " 1000 game "3f2a9c" gameRoom
              (mkPlayer "s1" "Ana" 0))
    as (room' & Hroom & Hletter & Hhistory & Hplayers & Hindex & _).
  - vm_compute. reflexivity.
  - reflexivity.
  - intros Hfail. apply Hfail. reflexivity.
  - intros Hfail. vm_compute in Hfail. discriminate Hfail.
  - intros [Hletter _]. apply Hletter. reflexivity.
  - intros (entry & Hin & _). simpl in Hin. by apply elem_of_nil in Hin.
  - exists room'. split_and!; [exact Hroom| | | |].
    + rewrite Hletter. vm_compute. reflexivity.
    + rewrite Hhistory. vm_compute. reflexivity.
    + rewrite Hplayers. vm_compute. reflexivity.
    + rewrite Hindex. vm_compute. reflexivity.
Defined.

(** *** C2 at work: a refusal for the wrong letter *)
Lemma submitPlace_refused_witness :
  after (submitPlace "s2" "Brazil" 2000 played) = played
  ∧ sent (submitPlace "s2" "Brazil" 2000 played) = [EmitError "s2" (WrongLetter "A")].
Proof.
  destruct (submitPlace_refused "s2" "Brazil" 2000 played "s2" (WrongLetter "A"))
    as (Hstate & Hsent & _).
  - replace (sent (submitPlace "s2" "Brazil" 2000 played))
      with [EmitError "s2" (WrongLetter "A")] by (vm_compute; reflexivity).
    apply list_elem_of_here.
  - split; [exact Hstate|exact Hsent].
Defined.

(** *** C3 at work: the letter check decides, the duplicate check is not reached *)
Lemma submitPlace_check_order_witness :
  sent (submitPlace "s2" "Brazil" 2000 played) = [EmitError "s2" (WrongLetter "A")]
  ↔ ¬ failsTurn "s2" (mkPlayer "s2" "Bo" 0) ∧ ¬ failsValidity "Brazil"
    ∧ failsLetter playedRoom "Brazil".
Proof.
  destruct (submitPlace_check_order "s2" "Brazil" 2000 played "3f2a9c" playedRoom
              (mkPlayer "s2" "Bo" 0))
    as (_ & _ & Hletter & _).
  - vm_compute. reflexivity.
  - reflexivity.
  - exact Hletter.
Defined.

(** *** C4 at work *)

(** A second [startGame] changes nothing more. *)
Lemma startGame_effect_witness :
  after (startGame "s2" (after (startGame "s2" played)))
  = after (startGame "s2" played).
Proof.
  destruct (startGame_effect "s2" played "3f2a9c" playedRoom) as (_ & Hagain & _).
  - vm_compute. reflexivity.
  - exact Hagain.
Defined.

(** In a started room in which ["A"] is the letter in play, [startGame]
    changes the room: the letter in play is cleared. *)
Lemma startGame_changes_started_room :
  boundRoom "s2" played = Some ("3f2a9c"%string, playedRoom)
  ∧ started playedRoom = true
  ∧ letterInPlay playedRoom = "A"%string
  ∧ gameRooms (after (startGame "s2" played)) !! "3f2a9c"%string
    = Some {| players := [mkPlayer "s1" "Ana" 1; mkPlayer "s2" "Bo" 0];
              history := [mkEntry "Ana" "Argentina" 1000];
              currentPlayerIndex := 1;
              letterInPlay := "";
              started := true |}
  ∧ gameRooms (after (startGame "s2" played)) !! "3f2a9c"%string
    ≠ gameRooms played !! "3f2a9c"%string.
Proof.
  split_and!; try (vm_compute; reflexivity).
  intros Heq. vm_compute in Heq. discriminate Heq.
Qed.

(** *** C5 at work *)

(** In the lobby the first player's ["Argentina"] is accepted. *)
Lemma lobby_submission_is_accepted :
  boundRoom "s1" lobby = Some ("3f2a9c"%string, lobbyRoom)
  ∧ started lobbyRoom = false
  ∧ gameRooms (after (submitPlace "s1" "Argentina" 1000 lobby)) !! "3f2a9c"%string
    = Some {| players := [mkPlayer "s1" "Ana" 1; mkPlayer "s2" "Bo" 0];
              history := [mkEntry "Ana" "Argentina" 1000];
              currentPlayerIndex := 1;
              letterInPlay := "A";
              started := false |}.
Proof. split_and!; vm_compute; reflexivity. Qed.

Lemma submitPlace_in_lobby_witness :
  gameRooms (after (submitPlace "s1" "Argentina" 1000 lobby)) !! "3f2a9c"%string
  = Some (acceptPlace (mkPlayer "s1" "Ana" 0) "Argentina" 1000 lobbyRoom).
Proof.
  destruct (submitPlace_in_lobby "s1" "Argentina" 1000 lobby "3f2a9c" lobbyRoom
              (mkPlayer "s1" "Ana" 0))
    as [Haccept _].
  - vm_compute. reflexivity.
  - reflexivity.
  - reflexivity.
  - apply Haccept. split_and!.
    + intros Hfail. apply Hfail. reflexivity.
    + intros Hfail. vm_compute in Hfail. discriminate Hfail.
    + intros [Hletter _]. apply Hletter. reflexivity.
    + intros (entry & Hin & _). simpl in Hin. by apply elem_of_nil in Hin.
Defined.

(** *** C6 at work: the second of three players leaves on the third one's
    turn, and the only player of a room leaves *)
Lemma disconnect_removes_player_witness :
  gameRooms (after (handle (Disconnect "s2") trio)) !! "3f2a9c"%string
  = Some {| players := [mkPlayer "s1" "Ana" 1; mkPlayer "s3" "Cy" 0];
            history := [mkEntry "Ana" "Argentina" 1000; mkEntry "Bo" "Albania" 2000];
            currentPlayerIndex := 1;
            letterInPlay := "A";
            started := true |}
  ∧ joinRoom "s9" "3f2a9c" "Di" (after (handle (Disconnect "s1") solo))
    = mkRun (after (handle (Disconnect "s1") solo))
            [Callback "s9" (AckFailure "Room not found")] Returned.
Proof.
  split.
  - destruct (disconnect_removes_player "s2" trio "3f2a9c" trioRoom 1)
      as (_ & Hstays & _ & _).
    + vm_compute. reflexivity.
    + reflexivity.
    + rewrite Hstays by (simpl; discriminate). vm_compute. reflexivity.
  - destruct (disconnect_removes_player "s1" solo "3f2a9c" soloRoom 0)
      as (_ & _ & Hgone & _).
    + vm_compute. reflexivity.
    + reflexivity.
    + destruct (Hgone eq_refl) as [_ Hjoin]. apply Hjoin. reflexivity.
Defined.

(** *** C7 and C8 at work *)
Lemma turn_pointer_invariant_witness : everyRoom turnPointerValid trio.
Proof.
  destruct (turn_pointer_invariant trio) as [Hvalid _].
  - apply demo_reachable.
  - exact Hvalid.
Defined.

Lemma history_places_distinct_witness : everyRoom distinctPlaces trio.
Proof.
  destruct (history_places_distinct trio) as [Hdistinct _].
  - apply demo_reachable.
  - exact Hdistinct.
Defined.

(** *** C9 at work: an unknown room, the name of an inherited member, a
    started room, a room in the lobby *)

(** On a server that has just started, [joinRoom] with the identifier
    ["constructor"] throws after having bound the socket. *)
Example joinRoom_constructor_on_fresh_server :
  joinRoom "s9" "constructor" "Di" initial
  = mkRun {| gameRooms := ∅; socketRoomId := {["s9"%string := "constructor"%string]} |}
          [SocketJoin "s9" "constructor"] TypeError.
Proof. vm_compute. reflexivity. Qed.

Lemma joinRoom_outcomes_witness :
  joinRoom "s9" "nosuch" "Di" played
  = mkRun played [Callback "s9" (AckFailure "Room not found")] Returned
  ∧ joinRoom "s9" "constructor" "Di" played
    = mkRun (bindSocket "s9" "constructor" played)
            [SocketJoin "s9" "constructor"] TypeError
  ∧ joinRoom "s9" "3f2a9c" "Di" played
    = mkRun played [Callback "s9" (AckFailure "Game already started")] Returned
  ∧ gameRooms (after (joinRoom "s3" "3f2a9c" "Cy" lobby)) !! "3f2a9c"%string
    = Some {| players := [mkPlayer "s1" "Ana" 0; mkPlayer "s2" "Bo" 0;
                          mkPlayer "s3" "Cy" 0];
              history := [];
              currentPlayerIndex := 0;
              letterInPlay := "";
              started := false |}.
Proof.
  split_and!.
  - destruct (joinRoom_outcomes "s9" "nosuch" "Di" played) as (Hunknown & _ & _ & _).
    apply Hunknown; vm_compute; reflexivity.
  - destruct (joinRoom_outcomes "s9" "constructor" "Di" played)
      as (_ & Hinherited & _ & _).
    apply Hinherited; vm_compute; reflexivity.
  - destruct (joinRoom_outcomes "s9" "3f2a9c" "Di" played) as (_ & _ & Hstarted & _).
    apply (Hstarted playedRoom); [vm_compute; reflexivity|reflexivity].
  - destruct (joinRoom_outcomes "s3" "3f2a9c" "Cy" lobby) as (_ & _ & _ & Hjoin).
    destruct (Hjoin lobbyRoom) as (Hroom & _); [vm_compute; reflexivity|reflexivity|].
    exact Hroom.
Defined.

(** *** C10 at work: a socket that never joined, and a socket whose room is gone *)
Lemma unbound_socket_is_ignored_witness :
  (startGame "s9" played = mkRun played [] Returned
   ∧ submitPlace "s9" "Goa" 1 played = mkRun played [] Returned)
  ∧ (startGame "s1" stale = mkRun stale [] Returned
     ∧ submitPlace "s1" "Goa" 1 stale = mkRun stale [] Returned).
Proof.
  split; apply unbound_socket_is_ignored.
  - left. vm_compute. reflexivity.
  - right. exists "3f2a9c"%string. split; vm_compute; reflexivity.
Defined.

(** * Further properties *)

(** ** The string methods on ASCII text obey the laws *)

Section AsciiLaws.

Import JsString.Ascii7.

Ltac each_char c :=
  destruct c as [[] [] [] [] [] [] [] []]; vm_compute; reflexivity.

Lemma lowerChar_idem (c : ascii) : lowerChar (lowerChar c) = lowerChar c.
Proof. each_char c. Qed.

Lemma lowerChar_space (c : ascii) : Ascii.eqb (lowerChar c) " " = Ascii.eqb c " ".
Proof. each_char c. Qed.

Lemma lowerChar_white (c : ascii) : isWhiteSpace (lowerChar c) = isWhiteSpace c.
Proof. each_char c. Qed.

Lemma mapChars_app (f : ascii → ascii) (a b : string) :
  mapChars f (String.append a b) = String.append (mapChars f a) (mapChars f b).
Proof. induction a as [|c a IH]; simpl; [done|]. by rewrite IH. Qed.

Lemma mapChars_empty (f : ascii → ascii) (s : string) :
  mapChars f s = EmptyString ↔ s = EmptyString.
Proof. by destruct s. Qed.

Lemma trimStart_lower (s : string) :
  trimStart (mapChars lowerChar s) = mapChars lowerChar (trimStart s).
Proof.
  induction s as [|c s IH]; simpl; [done|].
  rewrite lowerChar_white. by destruct (isWhiteSpace c).
Qed.

Lemma trimEnd_lower (s : string) :
  trimEnd (mapChars lowerChar s) = mapChars lowerChar (trimEnd s).
Proof.
  induction s as [|c s IH]; simpl; [done|].
  rewrite IH, lowerChar_white.
  destruct (trimEnd s); simpl; [|done]. by destruct (isWhiteSpace c).
Qed.

Lemma trimEnd_idem (s : string) : trimEnd (trimEnd s) = trimEnd s.
Proof.
  induction s as [|c s IH]; simpl; [done|].
  destruct (trimEnd s) as [|d t] eqn:Hend.
  - destruct (isWhiteSpace c) eqn:Hc; simpl; [done|]. by rewrite Hc.
  - change (trimEnd (String c (String d t))) with
      (match trimEnd (String d t) with
       | EmptyString => if isWhiteSpace c then EmptyString else String c EmptyString
       | u => String c u
       end).
    by rewrite IH.
Qed.

(** A string that does not begin with white space keeps its first character
    when its end is trimmed. *)
Lemma trimStart_trimEnd (s : string) :
  trimStart (trimEnd (trimStart s)) = trimEnd (trimStart s).
Proof.
  induction s as [|c s IH]; simpl; [done|].
  destruct (isWhiteSpace c) eqn:Hc; [exact IH|].
  simpl. destruct (trimEnd s); simpl; rewrite ?Hc; simpl; by rewrite ?Hc.
Qed.

Lemma split_lower (s : string) :
  split " " (mapChars lowerChar s) = mapChars lowerChar <$> split " " s.
Proof.
  induction s as [|c s IH]; simpl; [done|].
  rewrite lowerChar_space, IH.
  destruct (Ascii.eqb c " "); [done|]. by destruct (split " " s).
Qed.

Lemma join_lower (ws : list string) :
  mapChars lowerChar (join " " ws) = join " " (mapChars lowerChar <$> ws).
Proof.
  induction ws as [|w ws IH]; simpl; [done|].
  destruct ws as [|w' ws]; [done|].
  rewrite !mapChars_app, IH. done.
Qed.

Lemma ascii_lawful : @LawfulStrings ops.
Proof.
  split; simpl.
  - intros s. by rewrite trimStart_trimEnd, trimEnd_idem.
  - intros s. induction s as [|c s IH]; simpl; [done|].
    by rewrite lowerChar_idem, IH.
  - intros s. by rewrite trimStart_lower, trimEnd_lower.
  - apply split_lower.
  - apply join_lower.
  - apply mapChars_empty.
  - apply mapChars_empty.
Qed.

End AsciiLaws.

(** ** The validator *)

Section Words.

Lemma split_cons (s : string) : ∃ w ws, split " " s = w :: ws.
Proof.
  induction s as [|c s (w & ws & IH)]; simpl; [by eexists _, _|].
  destruct (Ascii.eqb c " "); [by eexists _, _|]. rewrite IH. by eexists _, _.
Qed.

Lemma join_cons (sep w w' : string) (ws : list string) :
  join sep (w :: w' :: ws) = String.append w (String.append sep (join sep (w' :: ws))).
Proof. done. Qed.

(** Splitting at the spaces and joining with spaces gives the string back. *)
Lemma join_split (s : string) : join " " (split " " s) = s.
Proof.
  induction s as [|c s IH]; simpl; [done|].
  destruct (split_cons s) as (w & ws & Hs). rewrite Hs in IH |- *.
  destruct (Ascii.eqb_spec c " ") as [->|_].
  - by rewrite join_cons, IH.
  - destruct ws as [|w' ws]; [by simpl in *; subst|].
    rewrite join_cons. rewrite join_cons in IH. by rewrite <- IH.
Qed.

Lemma split_app (a b : string) :
  split " " (String.append a (String " " b)) = split " " a ++ split " " b.
Proof.
  induction a as [|c a IH]; simpl; [done|].
  rewrite IH. destruct (Ascii.eqb c " "); [done|].
  by destruct (split_cons a) as (w & ws & ->).
Qed.

Lemma join_two_empty (ws : list string) :
  join " " (take 2 ws) = EmptyString → ws = [] ∨ ws = [EmptyString].
Proof.
  destruct ws as [|w [|w' ws]]; simpl; [by left|by intros ->; right|].
  destruct w; discriminate.
Qed.

End Words.

Section Validator.

Context {js : StringPrototype} {geo : CountryStateCity}.

(** [isValidPlace] succeeds exactly when one of the known names has the same
    first words as the normalized submission; the order of the three searches
    does not matter. *)
Lemma isValidPlace_true (placeName : string) :
  isValidPlace placeName = true
  ↔ ∃ name, name ∈ knownNames
            ∧ getFirstWords name = getFirstWords (toLowerCase (trim placeName)).
Proof.
  unfold isValidPlace, knownNames.
  set (same := fun name => bool_decide (getFirstWords name = _)).
  assert (∀ l, some same l = true
               ↔ ∃ name, name ∈ l
                 ∧ getFirstWords name = getFirstWords (toLowerCase (trim placeName)))
    as Hsome.
  { intros l. rewrite some_true. subst same.
    split; intros (name & Hin & Heq); exists name; split; try done.
    - by apply bool_decide_eq_true in Heq.
    - by apply bool_decide_eq_true. }
  split.
  - intros Hvalid.
    destruct (some same getAllCountries) eqn:H1.
    { apply Hsome in H1 as (name & Hin & Heq). exists name. rewrite !elem_of_app. auto. }
    destruct (some same getAllStates) eqn:H2.
    { apply Hsome in H2 as (name & Hin & Heq). exists name. rewrite !elem_of_app. auto. }
    destruct (some same getAllCities) eqn:H3; [|done].
    apply Hsome in H3 as (name & Hin & Heq). exists name. rewrite !elem_of_app. auto.
  - intros (name & Hin & Heq).
    apply elem_of_app in Hin as [Hin|Hin%elem_of_app].
    + replace (some same getAllCountries) with true; [done|].
      symmetry. apply Hsome. by exists name.
    + destruct (some same getAllCountries); [done|].
      destruct Hin as [Hin|Hin].
      * replace (some same getAllStates) with true; [done|].
        symmetry. apply Hsome. by exists name.
      * destruct (some same getAllStates); [done|].
        replace (some same getAllCities) with true; [done|].
        symmetry. apply Hsome. by exists name.
Qed.

Lemma getFirstWords_app (w rest : string) :
  (2 <= length (split " " w))%nat →
  getFirstWords (String.append w (String " " rest)) = getFirstWords w.
Proof.
  intros Hwords. unfold getFirstWords.
  by rewrite split_app, take_app_le.
Qed.

(** X1. [getFirstWords] reads the first two words only.  Whatever follows,
    after a space, a string of at least two words is ignored; and on a string
    of at most two words (at most one space) [getFirstWords] is
    [toLowerCase]: such a name is compared as a whole. *)
Theorem getFirstWords_two_words (w : string) :
  ((2 <= length (split " " w))%nat →
   ∀ rest, getFirstWords (String.append w (String " " rest)) = getFirstWords w)
  ∧ ((length (split " " w) <= 2)%nat → getFirstWords w = toLowerCase w).
Proof.
  split.
  - intros Hwords rest. by apply getFirstWords_app.
  - intros Hwords. unfold getFirstWords. by rewrite take_ge, join_split.
Qed.

Context {laws : LawfulStrings}.

Lemma getFirstWords_lower (s : string) :
  getFirstWords (toLowerCase s) = getFirstWords s.
Proof.
  unfold getFirstWords.
  by rewrite lower_split, <- fmap_take, <- lower_join, lower_lower.
Qed.

Lemma isValidPlace_normal (a b : string) :
  toLowerCase (trim a) = toLowerCase (trim b) → isValidPlace a = isValidPlace b.
Proof. intros Heq. unfold isValidPlace. by rewrite Heq. Qed.

(** X2. A known name is valid however it is typed: in any letter case and
    with white space around it. *)
Theorem known_name_is_valid (name placeName : string) :
  name ∈ knownNames →
  toLowerCase (trim placeName) = toLowerCase name →
  isValidPlace placeName = true.
Proof.
  intros Hin Heq. apply isValidPlace_true. exists name. split; [done|].
  by rewrite Heq, getFirstWords_lower.
Qed.

(** X3. When a known name has at least two words, every submission that
    continues it with further words is valid too. *)
Theorem longer_name_is_valid (name placeName rest : string) :
  name ∈ knownNames →
  (2 <= length (split " " name))%nat →
  toLowerCase (trim placeName) = String.append (toLowerCase name) (String " " rest) →
  isValidPlace placeName = true.
Proof.
  intros Hin Hwords Heq. apply isValidPlace_true. exists name. split; [done|].
  rewrite Heq, getFirstWords_app, getFirstWords_lower; [done|].
  by rewrite lower_split, length_fmap.
Qed.

(** X4. The validator does not see the white space around a submission nor
    its letter case: trimming or lowercasing the submission first changes
    nothing. *)
Theorem isValidPlace_insensitive (placeName : string) :
  isValidPlace (trim placeName) = isValidPlace placeName
  ∧ isValidPlace (toLowerCase placeName) = isValidPlace placeName.
Proof.
  split; apply isValidPlace_normal.
  - by rewrite trim_trim.
  - by rewrite <- lower_trim, lower_lower.
Qed.

(** When no known name is the empty string, a submission that is empty once
    trimmed is not valid. *)
Lemma isValidPlace_blank (placeName : string) :
  EmptyString ∉ knownNames →
  trim placeName = EmptyString →
  isValidPlace placeName = false.
Proof.
  intros Hnames Hblank. apply not_true_is_false.
  intros (name & Hin & Heq)%isValidPlace_true.
  assert (toLowerCase EmptyString = EmptyString) as Hlow by (by apply lower_empty).
  rewrite Hblank, Hlow in Heq.
  unfold getFirstWords in Heq. simpl in Heq.
  rewrite Hlow in Heq. apply (proj1 (lower_empty _)) in Heq.
  apply join_two_empty in Heq as [Hsplit|Hsplit].
  - destruct (split_cons name) as (w & ws & Hs). congruence.
  - apply Hnames. replace EmptyString with name; [done|].
    by rewrite <- (join_split name), Hsplit.
Qed.

End Validator.

(** ** Requests, step by step *)

Section Steps.

Context {js : StringPrototype} {geo : CountryStateCity}.

(** A room registered after a request is the room registered before it, or
    the new room of a [createRoom], or the result of the [roomStep] of that
    request on the room registered before it. *)
Lemma handle_roomStep (q : Request) (s : Server) (roomId : string) (room' : Room) :
  gameRooms (after (handle q s)) !! roomId = Some room' →
  gameRooms s !! roomId = Some room'
  ∨ (∃ socket name uuid,
       q = CreateRoom socket name uuid ∧ substring0 6 uuid = roomId
       ∧ room' = pushPlayer socket name emptyRoom)
  ∨ (∃ room, gameRooms s !! roomId = Some room ∧ roomStep roomId q room room').
Proof.
  destruct q as [socket name uuid|socket rid name|socket|socket placeName now|socket];
    simpl.
  - unfold createRoom, createGameRoom. rewrite lookup_insert_eq. simpl.
    destruct (decide (substring0 6 uuid = roomId)) as [<-|Hne].
    + rewrite lookup_insert_eq. intros [= <-]. right; left. by exists socket, name, uuid.
    + rewrite !lookup_insert_ne by done. by left.
  - unfold joinRoom. destruct (gameRooms s !! rid) as [room|] eqn:Hroom;
      [|destruct (inheritedMember rid); by left].
    destruct (started room) eqn:Hstarted; [by left|]. simpl.
    destruct (decide (rid = roomId)) as [->|Hne].
    + rewrite lookup_insert_eq. intros [= <-]. right; right.
      exists room. split; [done|]. by constructor.
    + rewrite lookup_insert_ne by done. by left.
  - unfold startGame.
    destruct (boundRoom socket s) as [[rid room]|] eqn:Hbound; [|by left]. simpl.
    apply boundRoom_Some in Hbound as (_ & _ & Hroom).
    destruct (decide (rid = roomId)) as [->|Hne].
    + rewrite lookup_insert_eq. intros [= <-]. right; right.
      exists room. split; [done|]. constructor.
    + rewrite lookup_insert_ne by done. by left.
  - destruct (boundRoom socket s) as [[rid room]|] eqn:Hbound; cycle 1.
    { unfold submitPlace. rewrite Hbound. by left. }
    destruct (at_index (players room) (currentPlayerIndex room)) as [cur|] eqn:Hcur;
      cycle 1.
    { unfold submitPlace. rewrite Hbound, Hcur. by left. }
    destruct (submitPlace_cases socket placeName now s rid room cur Hbound Hcur)
      as [[_ ->]|[(_ & _ & ->)|[(_ & _ & _ & ->)|[(_ & _ & _ & _ & ->)|
          (Ht & Hv & Hl & Hu & ->)]]]]; simpl; try by left.
    apply boundRoom_Some in Hbound as (_ & _ & Hroom).
    destruct (decide (rid = roomId)) as [->|Hne].
    + rewrite lookup_insert_eq. intros [= <-]. right; right.
      exists room. split; [done|]. constructor; try done.
      * unfold failsTurn in Ht. by destruct (decide (id cur = socket)).
      * unfold failsValidity in Hv. by destruct (isValidPlace (trim placeName)).
    + rewrite lookup_insert_ne by done. by left.
  - destruct (boundRoom socket s) as [[rid room]|] eqn:Hbound; cycle 1.
    { unfold disconnect. rewrite Hbound. by left. }
    destruct (findIndex (fun p => bool_decide (id p = socket)) (players room))
      as [i|] eqn:Hfind; cycle 1.
    { unfold disconnect. rewrite Hbound, Hfind. by left. }
    rewrite (disconnect_found socket s rid room i Hbound Hfind).
    apply boundRoom_Some in Hbound as (_ & _ & Hroom).
    case_bool_decide as Hempty; simpl.
    + destruct (decide (rid = roomId)) as [->|Hne].
      * by rewrite lookup_delete_eq.
      * rewrite lookup_delete_ne by done. by left.
    + destruct (decide (rid = roomId)) as [->|Hne].
      * rewrite lookup_insert_eq. intros [= <-]. right; right.
        exists room. split; [done|]. constructor; [done|].
        intros Hnil. apply Hempty. by rewrite Hnil.
      * rewrite lookup_insert_ne by done. by left.
Qed.

(** The induction principle of the reachable states, room by room. *)
Lemma reachable_rooms (P : Room → Prop) (s : Server) :
  (∀ socket name, P (pushPlayer socket name emptyRoom)) →
  (∀ roomId q room room', roomStep roomId q room room' → P room → P room') →
  reachable s → everyRoom P s.
Proof.
  intros Hnew Hkeep Hreach. induction Hreach as [|s q _ IH].
  - intros roomId room Hroom. simpl in Hroom. by rewrite lookup_empty in Hroom.
  - intros roomId room' Hroom'.
    apply handle_roomStep in Hroom'
      as [Hsame|[(socket & name & uuid & _ & _ & ->)|(room & Hroom & Hstep)]].
    + by apply (IH roomId).
    + apply Hnew.
    + apply (Hkeep roomId q room); [done|]. by apply (IH roomId).
Qed.

Lemma totalScore_app (l1 l2 : list Player) :
  foldr (fun p acc => score p + acc) 0 (l1 ++ l2)
  = foldr (fun p acc => score p + acc) 0 l1 + foldr (fun p acc => score p + acc) 0 l2.
Proof. induction l1 as [|p l1 IH]; simpl; lia. Qed.

Lemma totalScore_alter (l : list Player) (i : nat) (p : Player) :
  l !! i = Some p →
  foldr (fun p acc => score p + acc) 0 (alter addPoint i l)
  = foldr (fun p acc => score p + acc) 0 l + 1.
Proof.
  revert i. induction l as [|x l IH]; intros [|i] Hlook; simpl in *; try done.
  - injection Hlook as ->. simpl. lia.
  - specialize (IH i Hlook). unfold alter in IH. lia.
Qed.

Lemma totalScore_delete (l : list Player) (i : nat) (p : Player) :
  l !! i = Some p →
  foldr (fun p acc => score p + acc) 0 (delete i l)
  = foldr (fun p acc => score p + acc) 0 l - score p.
Proof.
  revert i. induction l as [|x l IH]; intros [|i] Hlook; simpl in *; try done.
  - injection Hlook as ->. lia.
  - rewrite (IH i Hlook). lia.
Qed.

End Steps.

(** ** More invariants of the reachable states *)

Section Accounting.

Context {js : StringPrototype} {geo : CountryStateCity}.

Lemma roomStep_scores (roomId : string) (q : Request) (room room' : Room) :
  roomStep roomId q room room' → scoresSound room → scoresSound room'.
Proof.
  unfold scoresSound, totalScore.
  intros [socket name r Hlobby|socket r|socket raw now cur r Hcur Hid Hv Hl Hu
         |socket i r Hfind Hrest]; simpl; intros [Hpos Htotal].
  - split.
    + intros p [Hp|Hp%list_elem_of_singleton]%elem_of_app; [by apply Hpos|].
      by subst p.
    + rewrite totalScore_app. simpl. lia.
  - done.
  - apply at_index_Some in Hcur as [Hrange Hlook]. split.
    + intros p (j & Hj)%list_elem_of_lookup. rewrite list_lookup_alter in Hj.
      case_decide as Heq.
      * subst j. rewrite Hlook in Hj. injection Hj as <-. simpl.
        assert (0 <= score cur) by (apply Hpos, list_elem_of_lookup; eauto). lia.
      * apply Hpos, list_elem_of_lookup. eauto.
    + rewrite (totalScore_alter _ _ cur Hlook), length_app. simpl. lia.
  - apply findIndex_Some in Hfind as (leaver & Hlook & _). split.
    + intros p Hp. apply Hpos. eapply elem_of_sublist; [done|]. apply sublist_delete.
    + rewrite (totalScore_delete _ _ leaver Hlook).
      assert (0 <= score leaver) by (apply Hpos, list_elem_of_lookup; eauto). lia.
Qed.

Lemma roomStep_letter (roomId : string) (q : Request) (room room' : Room) :
  roomStep roomId q room room' → letterFollowsHistory room → letterFollowsHistory room'.
Proof.
  unfold letterFollowsHistory.
  intros [socket name r Hlobby|socket r|socket raw now cur r Hcur Hid Hv Hl Hu
         |socket i r Hfind Hrest]; simpl; try done.
  - by left.
  - intros _. right. eexists. split; [apply last_snoc|]. simpl.
    by rewrite charAt_last.
Qed.

Lemma roomStep_places (roomId : string) (q : Request) (room room' : Room) :
  roomStep roomId q room room' → placesValidated room → placesValidated room'.
Proof.
  unfold placesValidated.
  intros [socket name r Hlobby|socket r|socket raw now cur r Hcur Hid Hv Hl Hu
         |socket i r Hfind Hrest]; simpl; try done.
  intros Hold entry [Hin|Hin%list_elem_of_singleton]%elem_of_app; [by apply Hold|].
  subst entry. simpl. split; [done|]. by exists raw.
Qed.

(** X5. In every reachable state a registered room has at least one player:
    a room is always created together with its first player, and is removed
    from the registry together with its last one. *)
Theorem registered_rooms_have_players (s : Server) (roomId : string) (room : Room) :
  reachable s → gameRooms s !! roomId = Some room → players room ≠ [].
Proof.
  intros Hreach Hroom Hnil.
  pose proof (reachable_pointer s Hreach roomId room Hroom) as Hrange.
  unfold turnPointerInRange in Hrange. rewrite Hnil in Hrange. simpl in Hrange. lia.
Qed.

(** X6. In a reachable state exactly one kind of request makes a handler
    read a property of [undefined] and end with an uncaught [TypeError]: a
    [joinRoom] whose identifier is the name of a member inherited from
    [Object.prototype].  Every other request is handled to the end; in
    particular [submitPlace] always finds the current player. *)
Theorem handlers_throw_only_on_inherited_join (s : Server) (q : Request) :
  reachable s →
  (completion (handle q s) = TypeError
   ↔ ∃ socket roomId name,
       q = JoinRoom socket roomId name ∧ inheritedMember roomId = true)
  ∧ ∀ socket roomId room,
      boundRoom socket s = Some (roomId, room) →
      is_Some (at_index (players room) (currentPlayerIndex room)).
Proof.
  intros Hreach. split.
  - split; [by apply reachable_returns|].
    intros (socket & roomId & name & -> & Hinherited). simpl. unfold joinRoom.
    destruct (gameRooms s !! roomId) as [room|] eqn:Hroom.
    + rewrite (reachable_ids_not_inherited s roomId) in Hinherited; [done|done|].
      by rewrite Hroom.
    + by rewrite Hinherited.
  - intros socket roomId room (_ & _ & Hroom)%boundRoom_Some.
    pose proof (reachable_pointer s Hreach roomId room Hroom) as Hrange.
    unfold turnPointerInRange in Hrange.
    destruct (lookup_lt_is_Some_2 (players room)
                (Z.to_nat (currentPlayerIndex room))) as [cur Hlook]; [lia|].
    exists cur. by apply at_index_Some.
Qed.

(** X7. In every reachable state no score is negative and the players of a
    room hold together at most as many points as the history of the room has
    entries (a point leaves the room with the player who earned it). *)
Theorem scores_are_sound (s : Server) :
  reachable s → everyRoom scoresSound s.
Proof.
  apply reachable_rooms.
  - intros socket name. split; simpl; [|done].
    intros p Hp%list_elem_of_singleton. by subst p.
  - apply roomStep_scores.
Qed.

(** X8. In every reachable state the letter in play of a room is the empty
    string or the uppercased last character of the place of the last history
    entry. *)
Theorem letter_follows_history (s : Server) :
  reachable s → everyRoom letterFollowsHistory s.
Proof.
  apply reachable_rooms.
  - intros socket name. by left.
  - apply roomStep_letter.
Qed.

(** X9. In every reachable state every place of a history is a trimmed
    submission that [isValidPlace] accepted. *)
Theorem places_are_validated (s : Server) :
  reachable s → everyRoom placesValidated s.
Proof.
  apply reachable_rooms.
  - intros socket name entry Hin. simpl in Hin. by apply elem_of_nil in Hin.
  - apply roomStep_places.
Qed.

(** X10. Across any request the history of a room only grows at its end and
    a started room stays started, unless the request is a [createRoom] that
    draws the identifier of the room and so replaces it by a new room. *)
Theorem history_only_grows (q : Request) (s : Server) (roomId : string)
    (room room' : Room) :
  gameRooms s !! roomId = Some room →
  gameRooms (after (handle q s)) !! roomId = Some room' →
  (∃ socket name uuid,
     q = CreateRoom socket name uuid ∧ substring0 6 uuid = roomId
     ∧ room' = pushPlayer socket name emptyRoom)
  ∨ (history room `prefix_of` history room'
     ∧ (started room = true → started room' = true)).
Proof.
  intros Hroom Hroom'.
  apply handle_roomStep in Hroom' as [Hsame|[Hnew|(r & Hr & Hstep)]].
  - right. rewrite Hroom in Hsame. by injection Hsame as ->.
  - by left.
  - right. rewrite Hroom in Hr. injection Hr as <-.
    destruct Hstep; simpl; split; try done.
    by apply prefix_app_r.
Qed.

End Accounting.

(** ** Creating a room, and the rooms a request leaves alone *)

Section Rooms.

Context {js : StringPrototype} {geo : CountryStateCity}.

(** X11. [createRoom] never fails.  It registers, under the first six
    characters of the value of [uuidv4()], a room that is not started, has no
    history, and has the creator, with score 0, as its only player and
    current player; whatever was registered under that identifier before is
    replaced.  It stores the identifier on the socket, leaves every other
    room and socket alone, acknowledges with the identifier and broadcasts
    the new room. *)
Theorem createRoom_outcome (socket name uuid : string) (s : Server) :
  let roomId := substring0 6 uuid in
  let room := {| players := [mkPlayer socket name 0];
                 history := [];
                 currentPlayerIndex := 0;
                 letterInPlay := "";
                 started := false |} in
  let run := createRoom socket name uuid s in
  (String.length roomId <= 6)%nat
  ∧ gameRooms (after run) !! roomId = Some room
  ∧ (∀ other, other ≠ roomId → gameRooms (after run) !! other = gameRooms s !! other)
  ∧ socketRoomId (after run) !! socket = Some roomId
  ∧ (∀ other, other ≠ socket →
       socketRoomId (after run) !! other = socketRoomId s !! other)
  ∧ sent run = [SocketJoin socket roomId; Callback socket (AckCreated roomId);
                EmitRoom roomId (updateRoom room)]
  ∧ completion run = Returned.
Proof.
  intros roomId room run. subst run.
  unfold createRoom, createGameRoom. fold roomId. rewrite lookup_insert_eq. simpl.
  split_and!; try done.
  - apply substring0_length.
  - by rewrite lookup_insert_eq.
  - intros other Hne. by rewrite !lookup_insert_ne.
  - by rewrite lookup_insert_eq.
  - intros other Hne. by rewrite lookup_insert_ne.
Qed.

(** X12. A room can be joined under the identifier that [createRoom]
    acknowledged: the join is accepted and the room then has exactly the
    creator and the joiner, in this order, both with score 0, the creator
    being the current player. *)
Theorem create_then_join (socket name uuid socket' name' : string) (s : Server) :
  let roomId := substring0 6 uuid in
  let room := {| players := [mkPlayer socket name 0; mkPlayer socket' name' 0];
                 history := [];
                 currentPlayerIndex := 0;
                 letterInPlay := "";
                 started := false |} in
  let created := after (createRoom socket name uuid s) in
  gameRooms (after (joinRoom socket' roomId name' created)) !! roomId = Some room
  ∧ sent (joinRoom socket' roomId name' created)
    = [SocketJoin socket' roomId; Callback socket' (AckJoined room);
       EmitRoom roomId (updateRoom room)]
  ∧ boundRoom socket' (after (joinRoom socket' roomId name' created))
    = (if truthy roomId then Some (roomId, room) else None).
Proof.
  intros roomId room created. subst created.
  unfold createRoom, createGameRoom. fold roomId. rewrite lookup_insert_eq. simpl.
  unfold joinRoom. simpl. rewrite lookup_insert_eq. simpl.
  rewrite lookup_insert_eq. split_and!; try done.
  unfold boundRoom. simpl. rewrite !lookup_insert_eq.
  by destruct (truthy roomId).
Qed.

(** A request changes no room but its target. *)
Lemma handle_other_rooms (q : Request) (s : Server) (other : string) :
  target q s ≠ Some other →
  gameRooms (after (handle q s)) !! other = gameRooms s !! other.
Proof.
  destruct q as [socket name uuid|socket rid name|socket|socket placeName now|socket];
    simpl; intros Hother.
  - unfold createRoom, createGameRoom. rewrite lookup_insert_eq. simpl.
    rewrite !lookup_insert_ne; [done|congruence|congruence].
  - unfold joinRoom. destruct (gameRooms s !! rid) as [room|];
      [|by destruct (inheritedMember rid)].
    destruct (started room); [done|]. simpl.
    rewrite lookup_insert_ne; [done|congruence].
  - unfold startGame.
    destruct (boundRoom socket s) as [[rid room]|] eqn:Hbound; [|done]. simpl.
    apply boundRoom_Some in Hbound as (Hsock & _ & _).
    rewrite lookup_insert_ne; [done|congruence].
  - destruct (boundRoom socket s) as [[rid room]|] eqn:Hbound; cycle 1.
    { unfold submitPlace. by rewrite Hbound. }
    destruct (at_index (players room) (currentPlayerIndex room)) as [cur|] eqn:Hcur;
      cycle 1.
    { unfold submitPlace. by rewrite Hbound, Hcur. }
    destruct (submitPlace_cases socket placeName now s rid room cur Hbound Hcur)
      as [[_ ->]|[(_ & _ & ->)|[(_ & _ & _ & ->)|[(_ & _ & _ & _ & ->)|
          (_ & _ & _ & _ & ->)]]]]; simpl; try done.
    apply boundRoom_Some in Hbound as (Hsock & _ & _).
    rewrite lookup_insert_ne; [done|congruence].
  - unfold disconnect.
    destruct (boundRoom socket s) as [[rid room]|] eqn:Hbound; [|done].
    apply boundRoom_Some in Hbound as (Hsock & _ & _).
    destruct (findIndex _ (players room)); [|done].
    case_bool_decide; simpl.
    + rewrite lookup_delete_ne; [done|congruence].
    + rewrite lookup_insert_ne; [done|congruence].
Qed.

(** A request changes no socket but its sender. *)
Lemma handle_other_sockets (q : Request) (s : Server) (other : string) :
  other ≠ sender q →
  socketRoomId (after (handle q s)) !! other = socketRoomId s !! other.
Proof.
  destruct q as [socket name uuid|socket rid name|socket|socket placeName now|socket];
    simpl; intros Hother.
  - unfold createRoom, createGameRoom. rewrite lookup_insert_eq. simpl.
    by rewrite lookup_insert_ne.
  - unfold joinRoom. destruct (gameRooms s !! rid) as [room|]; cycle 1.
    { destruct (inheritedMember rid); [|done]. simpl. by rewrite lookup_insert_ne. }
    destruct (started room); [done|]. simpl. by rewrite lookup_insert_ne.
  - unfold startGame. by destruct (boundRoom socket s) as [[rid room]|].
  - unfold submitPlace.
    destruct (boundRoom socket s) as [[rid room]|]; [|done].
    destruct (at_index (players room) (currentPlayerIndex room)); [|done].
    repeat (match goal with |- context [if ?b then _ else _] => destruct b end;
            simpl; try done).
  - rewrite lookup_delete_ne by done. unfold disconnect.
    destruct (boundRoom socket s) as [[rid room]|]; [|done].
    destruct (findIndex _ (players room)); [|done].
    by case_bool_decide.
Qed.

(** X13. Rooms are isolated: a request changes at most one room, the one it
    names ([createRoom], [joinRoom]) or the one stored on its socket, and at
    most the [roomId] of its own socket. *)
Theorem requests_are_local (q : Request) (s : Server) :
  (∀ other, target q s ≠ Some other →
     gameRooms (after (handle q s)) !! other = gameRooms s !! other)
  ∧ (∀ other, other ≠ sender q →
       socketRoomId (after (handle q s)) !! other = socketRoomId s !! other).
Proof.
  split; intros other Hother.
  - by apply handle_other_rooms.
  - by apply handle_other_sockets.
Qed.


End Rooms.

(** ** Leaving, and whose turn it is *)

Section Turns.

Context {js : StringPrototype} {geo : CountryStateCity}.

Lemma findIndex_None {A : Type} (p : A → bool) (a : list A) :
  (∀ x, x ∈ a → p x = false) → findIndex p a = None.
Proof.
  induction a as [|x a IH]; simpl; intros Hall; [done|].
  rewrite (Hall x) by apply list_elem_of_here.
  rewrite IH; [done|]. intros y Hy. apply Hall. by apply list_elem_of_further.
Qed.

(** X15. When the room stored on a socket lists no player with the
    identifier of the socket, the disconnection of the socket changes no room
    and sends nothing. *)
Theorem disconnect_of_stranger (socket : string) (s : Server) (roomId : string)
    (room : Room) :
  boundRoom socket s = Some (roomId, room) →
  (∀ p, p ∈ players room → id p ≠ socket) →
  disconnect socket s = mkRun s [] Returned
  ∧ gameRooms (after (handle (Disconnect socket) s)) = gameRooms s
  ∧ sent (handle (Disconnect socket) s) = [].
Proof.
  intros Hbound Hstranger.
  assert (disconnect socket s = mkRun s [] Returned) as Hrun.
  { unfold disconnect. rewrite Hbound. rewrite findIndex_None; [done|].
    intros p Hp. apply bool_decide_eq_false. by apply Hstranger. }
  split; [done|]. simpl. by rewrite Hrun.
Qed.

(** X16. Whose turn it is after a player has left and others remain.  When
    the leaver was not the current player, the current player is the same
    player as before.  When the leaver was the current player, the turn goes
    to the player just before the leaver in the list, or, when the leaver was
    first in the list, to the player just after. *)
Theorem turn_after_disconnect (socket : string) (s : Server) (roomId : string)
    (room : Room) (i : nat) (currentPlayer : Player) :
  boundRoom socket s = Some (roomId, room) →
  findIndex (fun p => bool_decide (id p = socket)) (players room) = Some i →
  at_index (players room) (currentPlayerIndex room) = Some currentPlayer →
  delete i (players room) ≠ [] →
  ∃ room',
    gameRooms (after (handle (Disconnect socket) s)) !! roomId = Some room'
    ∧ (Z.of_nat i ≠ currentPlayerIndex room →
       at_index (players room') (currentPlayerIndex room') = Some currentPlayer)
    ∧ (Z.of_nat i = currentPlayerIndex room → (0 < i)%nat →
       at_index (players room') (currentPlayerIndex room')
       = players room !! (i - 1)%nat)
    ∧ (Z.of_nat i = currentPlayerIndex room → i = 0%nat →
       at_index (players room') (currentPlayerIndex room') = players room !! 1%nat).
Proof.
  intros Hbound Hfind Hcur Hrest.
  pose proof (disconnect_found socket s roomId room i Hbound Hfind) as Hrun.
  apply at_index_Some in Hcur as [Hrange Hlook].
  exists (removeAt i room). simpl. rewrite Hrun. clear Hrun.
  rewrite bool_decide_eq_false_2 by (by destruct (delete i (players room))).
  simpl. rewrite lookup_insert_eq. split; [done|].
  rewrite repair_test. unfold repairedIndex, at_index.
  split_and!.
  - intros Hne. case_decide as Hle.
    + destruct (Z.ltb_spec (currentPlayerIndex room - 1) 0) as [?|_]; [lia|].
      rewrite list_lookup_delete_ge by lia.
      by replace (S (Z.to_nat (currentPlayerIndex room - 1)))
        with (Z.to_nat (currentPlayerIndex room)) by lia.
    + destruct (Z.ltb_spec (currentPlayerIndex room) 0) as [?|_]; [lia|].
      rewrite list_lookup_delete_lt by lia. done.
  - intros Heq Hpos. rewrite decide_True by lia.
    destruct (Z.ltb_spec (currentPlayerIndex room - 1) 0) as [?|_]; [lia|].
    rewrite list_lookup_delete_lt by lia. f_equal. lia.
  - intros Heq ->. rewrite decide_False by lia.
    destruct (Z.ltb_spec (currentPlayerIndex room) 0) as [?|_]; [lia|].
    rewrite list_lookup_delete_ge by lia. f_equal. lia.
Qed.

(** X17. Once a game is started nobody can join it: after [startGame] on a
    room, a [joinRoom] with the identifier of the room is answered
    ["Game already started"] and changes nothing. *)
Theorem no_join_after_start (socket socket' name : string) (s : Server)
    (roomId : string) (room : Room) :
  boundRoom socket s = Some (roomId, room) →
  joinRoom socket' roomId name (after (startGame socket s))
  = mkRun (after (startGame socket s))
          [Callback socket' (AckFailure "Game already started")] Returned.
Proof.
  intros Hbound. unfold startGame. rewrite Hbound. simpl.
  unfold joinRoom. simpl. by rewrite lookup_insert_eq.
Qed.

(** A request answered by [updateGame] is an accepted submission. *)
Lemma updateGame_inv (q : Request) (s : Server) (roomId : string) (room' : Room) :
  sent (handle q s) = [EmitRoom roomId (updateGame room')] →
  ∃ socket raw now room currentPlayer,
    q = SubmitPlace socket raw now
    ∧ boundRoom socket s = Some (roomId, room)
    ∧ at_index (players room) (currentPlayerIndex room) = Some currentPlayer
    ∧ isValidPlace (trim raw) = true
    ∧ room' = acceptPlace currentPlayer (trim raw) now room
    ∧ after (handle q s) = setRooms (<[roomId := room']> (gameRooms s)) s.
Proof.
  destruct q as [socket name uuid|socket rid name|socket|socket placeName now|socket];
    simpl.
  - unfold createRoom, createGameRoom. by rewrite lookup_insert_eq.
  - unfold joinRoom. destruct (gameRooms s !! rid) as [room|];
      [|by destruct (inheritedMember rid)].
    by destruct (started room).
  - unfold startGame. by destruct (boundRoom socket s) as [[rid room]|].
  - destruct (boundRoom socket s) as [[rid room]|] eqn:Hbound; cycle 1.
    { unfold submitPlace. by rewrite Hbound. }
    destruct (at_index (players room) (currentPlayerIndex room)) as [cur|] eqn:Hcur;
      cycle 1.
    { unfold submitPlace. by rewrite Hbound, Hcur. }
    destruct (submitPlace_cases socket placeName now s rid room cur Hbound Hcur)
      as [[_ ->]|[(_ & _ & ->)|[(_ & _ & _ & ->)|[(_ & _ & _ & _ & ->)|
          (_ & Hv & _ & _ & ->)]]]]; simpl; try done.
    intros [= <- <-]. exists socket, placeName, now, room, cur.
    split_and!; try done.
    unfold failsValidity in Hv. by destruct (isValidPlace (trim placeName)).
  - unfold disconnect. destruct (boundRoom socket s) as [[rid room]|]; [|done].
    destruct (findIndex _ (players room)); [|done]. by case_bool_decide.
Qed.

(** X18. The turn goes round: after [n] accepted submissions in a row in a
    room of [P] players, the room has the same number of players, [n] more
    history entries, and its turn pointer is the old one plus [n], modulo
    [P]. *)
Theorem turns_go_round (qs : list Request) (s : Server) (roomId : string)
    (room : Room) :
  gameRooms s !! roomId = Some room →
  turnPointerInRange room →
  allAccepted roomId qs s →
  ∃ room',
    gameRooms (runAll qs s) !! roomId = Some room'
    ∧ length (players room') = length (players room)
    ∧ length (history room') = (length (history room) + length qs)%nat
    ∧ currentPlayerIndex room'
      = (currentPlayerIndex room + Z.of_nat (length qs))
          `mod` Z.of_nat (length (players room)).
Proof.
  revert s room. induction qs as [|q qs IH]; intros s room Hroom Hrange Hall.
  - exists room. simpl. split_and!; [done|done|lia|].
    unfold turnPointerInRange in Hrange. rewrite Z.add_0_r, Z.mod_small; lia.
  - destruct Hall as [[room1 Hsent] Hall].
    apply updateGame_inv in Hsent
      as (socket & raw & now & r & cur & -> & Hbound & Hcur & _ & -> & Hafter).
    apply boundRoom_Some in Hbound as (_ & _ & Hr).
    rewrite Hroom in Hr. injection Hr as <-.
    unfold turnPointerInRange in Hrange.
    set (room1 := acceptPlace cur (trim raw) now room) in *.
    assert (length (players room1) = length (players room)) as Hlen
      by (subst room1; simpl; apply length_alter).
    assert (currentPlayerIndex room1
            = (currentPlayerIndex room + 1) `mod` Z.of_nat (length (players room)))
      as Hnext by (subst room1; simpl; apply Z.rem_mod_nonneg; lia).
    destruct (IH (after (handle (SubmitPlace socket raw now) s)) room1)
      as (room' & Hroom' & Hplayers & Hhistory & Hindex); [| |done|].
    + rewrite Hafter. simpl. by rewrite lookup_insert_eq.
    + unfold turnPointerInRange. rewrite Hlen, Hnext. apply Z.mod_pos_bound. lia.
    + exists room'. split_and!.
      * exact Hroom'.
      * by rewrite Hplayers.
      * rewrite Hhistory. subst room1. simpl. rewrite length_app. simpl. lia.
      * rewrite Hindex, Hlen, Hnext. rewrite Z.add_mod_idemp_l by lia.
        f_equal. simpl length. lia.
Qed.

Context {laws : LawfulStrings}.

Lemma lastCharacter_empty (s : string) :
  lastCharacter s = EmptyString → s = EmptyString.
Proof.
  induction s as [|c s IH]; [done|]. simpl. destruct s; [done|]. intros Hlast.
  by apply IH in Hlast.
Qed.

(** X19. When no known name is the empty string, a submission that is empty
    once trimmed is not a valid place and is never accepted: it leaves the
    server state as it is, and no [updateGame] is broadcast. *)
Theorem blank_submission_is_refused (socket raw : string) (now : Z) (s : Server) :
  EmptyString ∉ knownNames →
  trim raw = EmptyString →
  isValidPlace raw = false
  ∧ after (submitPlace socket raw now s) = s
  ∧ ∀ roomId room, EmitRoom roomId (updateGame room) ∉ sent (submitPlace socket raw now s).
Proof.
  intros Hnames Hblank.
  assert (isValidPlace (trim raw) = false) as Hinvalid.
  { apply isValidPlace_blank; [done|]. by rewrite trim_trim. }
  split; [by apply isValidPlace_blank|].
  destruct (boundRoom socket s) as [[rid room]|] eqn:Hbound; cycle 1.
  { unfold submitPlace. rewrite Hbound. split; [done|]. intros ? ?. apply not_elem_of_nil. }
  destruct (at_index (players room) (currentPlayerIndex room)) as [cur|] eqn:Hcur;
    cycle 1.
  { unfold submitPlace. rewrite Hbound, Hcur. split; [done|].
    intros ? ?. apply not_elem_of_nil. }
  destruct (submitPlace_cases socket raw now s rid room cur Hbound Hcur)
    as [[_ ->]|[(_ & _ & ->)|[(_ & _ & _ & ->)|[(_ & _ & _ & _ & ->)|
        (_ & Hv & _)]]]]; simpl; [..|done];
    (split; [done|]; intros ? ? Hin%list_elem_of_singleton; discriminate).
Qed.

(** X20. When no known name is the empty string, an accepted submission
    leaves a letter in play that is not empty, so that the next submission is
    subject to the letter check; and the place it records is not empty. *)
Theorem accepted_place_sets_a_letter (q : Request) (s : Server) (roomId : string)
    (room' : Room) :
  EmptyString ∉ knownNames →
  sent (handle q s) = [EmitRoom roomId (updateGame room')] →
  letterInPlay room' ≠ EmptyString
  ∧ ∃ entry, last (history room') = Some entry ∧ place entry ≠ EmptyString.
Proof.
  intros Hnames Hsent.
  apply updateGame_inv in Hsent
    as (socket & raw & now & room & cur & _ & _ & _ & Hvalid & -> & _).
  assert (trim raw ≠ EmptyString) as Hplace.
  { intros Hblank.
    rewrite isValidPlace_blank in Hvalid; [done|done|]. by rewrite trim_trim. }
  split.
  - simpl. rewrite charAt_last. intros Hletter.
    apply (proj1 (upper_empty _)) in Hletter.
    by apply lastCharacter_empty in Hletter.
  - eexists. split; [apply last_snoc|done].
Qed.

End Turns.

(** ** The further properties at work *)

Import Scenes.

Lemma demo_names_not_empty : EmptyString ∉ knownNames.
Proof.
  intros Hin. apply list_elem_of_In in Hin. vm_compute in Hin.
  repeat (destruct Hin as [Hin|Hin]; [discriminate Hin|]). exact Hin.
Qed.

Lemma getFirstWords_two_words_witness :
  getFirstWords "new york city" = getFirstWords "new york"
  ∧ getFirstWords "Paris" = toLowerCase "Paris".
Proof.
  destruct (getFirstWords_two_words "new york") as [Hlong _].
  destruct (getFirstWords_two_words "Paris") as [_ Hshort].
  split.
  - apply (Hlong ltac:(vm_compute; lia) "city"%string).
  - apply Hshort. vm_compute. lia.
Defined.

Lemma known_name_is_valid_witness : isValidPlace "  ARGENTINA " = true.
Proof.
  apply (known_name_is_valid (laws := ascii_lawful) "Argentina").
  - apply list_elem_of_here.
  - vm_compute. reflexivity.
Defined.

Lemma longer_name_is_valid_witness : isValidPlace " new york city" = true.
Proof.
  apply (longer_name_is_valid (laws := ascii_lawful) "New York" _ "city").
  - apply list_elem_of_In. vm_compute. tauto.
  - vm_compute. lia.
  - vm_compute. reflexivity.
Defined.

Lemma isValidPlace_insensitive_witness :
  isValidPlace (trim " PARIS ") = isValidPlace " PARIS "
  ∧ isValidPlace (toLowerCase " PARIS ") = isValidPlace " PARIS ".
Proof. apply (isValidPlace_insensitive (laws := ascii_lawful)). Defined.

Lemma registered_rooms_have_players_witness : players trioRoom ≠ [].
Proof.
  apply (registered_rooms_have_players trio "3f2a9c").
  - apply demo_reachable.
  - vm_compute. reflexivity.
Defined.

Lemma handlers_throw_only_on_inherited_join_witness :
  completion (handle (JoinRoom "s9" "toString" "Di") trio) = TypeError
  ∧ completion (handle (SubmitPlace "s3" "Ankara" 3000) trio) ≠ TypeError.
Proof.
  split.
  - destruct (handlers_throw_only_on_inherited_join trio
                (JoinRoom "s9" "toString" "Di")) as [[_ Hthrows] _].
    + apply demo_reachable.
    + apply Hthrows. exists "s9"%string, "toString"%string, "Di"%string.
      split; reflexivity.
  - destruct (handlers_throw_only_on_inherited_join trio
                (SubmitPlace "s3" "Ankara" 3000)) as [[Honly _] _].
    + apply demo_reachable.
    + intros Hthrows. destruct (Honly Hthrows) as (socket & roomId & name & Hq & _).
      discriminate Hq.
Defined.

Lemma scores_are_sound_witness : scoresSound trioRoom.
Proof.
  apply (scores_are_sound trio (demo_reachable _) "3f2a9c").
  vm_compute. reflexivity.
Defined.

Lemma letter_follows_history_witness : letterFollowsHistory trioRoom.
Proof.
  apply (letter_follows_history trio (demo_reachable _) "3f2a9c").
  vm_compute. reflexivity.
Defined.

Lemma places_are_validated_witness : placesValidated trioRoom.
Proof.
  apply (places_are_validated trio (demo_reachable _) "3f2a9c").
  vm_compute. reflexivity.
Defined.

Lemma history_only_grows_witness :
  history playedRoom `prefix_of` history (startRoom playedRoom)
  ∧ (started playedRoom = true → started (startRoom playedRoom) = true).
Proof.
  destruct (history_only_grows (StartGame "s2") played "3f2a9c" playedRoom
              (startRoom playedRoom)) as [(socket & name & uuid' & Hq & _)|Hgrows].
  - vm_compute. reflexivity.
  - vm_compute. reflexivity.
  - discriminate Hq.
  - exact Hgrows.
Defined.

Lemma requests_are_local_witness :
  gameRooms (after (handle (SubmitPlace "s1" "India" 5) moved)) !! "b7e41d"%string
  = gameRooms moved !! "b7e41d"%string
  ∧ socketRoomId (after (handle (Disconnect "s1") moved)) !! "s2"%string
    = socketRoomId moved !! "s2"%string.
Proof.
  split.
  - destruct (requests_are_local (SubmitPlace "s1" "India" 5) moved) as [Hrooms _].
    apply Hrooms. vm_compute. discriminate.
  - destruct (requests_are_local (Disconnect "s1") moved) as [_ Hsockets].
    apply Hsockets. simpl. discriminate.
Defined.


Lemma disconnect_of_stranger_witness :
  gameRooms (after (handle (Disconnect "s1") replaced)) = gameRooms replaced
  ∧ sent (handle (Disconnect "s1") replaced) = [].
Proof.
  destruct (disconnect_of_stranger "s1" replaced "3f2a9c" replacedRoom)
    as (_ & Hrooms & Hsent).
  - vm_compute. reflexivity.
  - intros p Hp%list_elem_of_singleton. subst p. simpl. discriminate.
  - split; [exact Hrooms|exact Hsent].
Defined.

Lemma turn_after_disconnect_witness :
  ∃ room',
    gameRooms (after (handle (Disconnect "s2") trio)) !! "3f2a9c"%string = Some room'
    ∧ at_index (players room') (currentPlayerIndex room') = Some (mkPlayer "s3" "Cy" 0).
Proof.
  destruct (turn_after_disconnect "s2" trio "3f2a9c" trioRoom 1 (mkPlayer "s3" "Cy" 0))
    as (room' & Hroom' & Hother & _).
  - vm_compute. reflexivity.
  - reflexivity.
  - reflexivity.
  - simpl. discriminate.
  - exists room'. split; [exact Hroom'|]. apply Hother. simpl. lia.
Defined.

Lemma no_join_after_start_witness :
  joinRoom "s3" "3f2a9c" "Cy" (after (startGame "s1" lobby))
  = mkRun (after (startGame "s1" lobby))
          [Callback "s3" (AckFailure "Game already started")] Returned.
Proof.
  apply (no_join_after_start "s1" "s3" "Cy" lobby "3f2a9c" lobbyRoom).
  vm_compute. reflexivity.
Defined.

Lemma turns_go_round_witness :
  ∃ room',
    gameRooms (runAll fourMoves trioStart) !! "3f2a9c"%string = Some room'
    ∧ length (players room') = 3%nat
    ∧ length (history room') = 4%nat
    ∧ currentPlayerIndex room' = 1.
Proof.
  destruct (turns_go_round fourMoves trioStart "3f2a9c" trioStartRoom)
    as (room' & Hroom' & Hplayers & Hhistory & Hindex).
  - vm_compute. reflexivity.
  - unfold turnPointerInRange. simpl. lia.
  - unfold fourMoves. cbn [allAccepted].
    repeat split; eexists; vm_compute; reflexivity.
  - exists room'. split_and!; [exact Hroom'|exact Hplayers|exact Hhistory|exact Hindex].
Defined.

Lemma blank_submission_is_refused_witness :
  isValidPlace "   " = false
  ∧ after (submitPlace "s2" "   " 2000 played) = played.
Proof.
  destruct (blank_submission_is_refused (laws := ascii_lawful) "s2" "   " 2000 played)
    as (Hinvalid & Hstate & _).
  - exact demo_names_not_empty.
  - vm_compute. reflexivity.
  - split; [exact Hinvalid|exact Hstate].
Defined.

Lemma accepted_place_sets_a_letter_witness : letterInPlay playedRoom ≠ EmptyString.
Proof.
  destruct (accepted_place_sets_a_letter (laws := ascii_lawful)
              (SubmitPlace "s1" " Argentina " 1000) game "3f2a9c" playedRoom)
    as [Hletter _].
  - exact demo_names_not_empty.
  - vm_compute. reflexivity.
  - exact Hletter.
Defined.
